(** * DictionaryPW: a model of [password_generator.py]

    The development follows the source file top to bottom:

    - [Py]: the fragments of Python the program relies on (character
      classes, list item assignment and insertion, [range], slices,
      [itertools.product], the [random] module driven by an explicit
      tape of draws);
    - [PasswordDB]: the table [passwords] and the two statements the
      program runs against it;
    - [PasswordConfig], [load_dictionary], [generate_variations],
      [enhance_password];
    - the word partition of [main];
    - the processes ([worker_process], [writer_process], the monitor loop
      of [main]) as transition systems over the shared queue, stop event
      and database.

    Strings are ASCII text. The [str] methods of [Py] are those of Python
    on the characters 0 to 127, where [upper] and [lower] map one character
    to one; on other characters Python's methods do more (a letter can
    lower to two characters), and the theorems that rest on the difference
    assume [ascii_word]. *)

From Stdlib Require Import ZArith List String Ascii Lia.
From stdpp Require Import base tactics option list strings gmap sets relations.

Local Open Scope Z_scope.

(* ===================================================================== *)
(** * Python fragments *)
(* ===================================================================== *)

Module Py.

(** Exceptions the modelled code can raise. [Empty] is [queue.Empty];
    [OperationalError] stands for any failure of the sqlite connection or
    of the manager proxies. *)
Inductive exn : Type :=
  | ValueError
  | IndexError
  | ZeroDivisionError
  | Empty
  | IntegrityError
  | OperationalError.

Inductive outcome (A : Type) : Type :=
  | Return (a : A)
  | Raise (e : exn).
Arguments Return {A} a.
Arguments Raise {A} e.

#[export] Instance outcome_ret : MRet outcome := fun A a => Return a.

#[export] Instance outcome_bind : MBind outcome := fun A B f o =>
  match o with
  | Return a => f a
  | Raise e => Raise e
  end.

(** ** [str] methods on one character

    As Python defines them on the characters 0 to 127; a character above
    127 is taken to be no letter, no digit and no white space. *)

Definition code (c : ascii) : nat := nat_of_ascii c.

Definition isascii (c : ascii) : bool := (code c <? 128)%nat.

Definition isupper (c : ascii) : bool :=
  (65 <=? code c)%nat && (code c <=? 90)%nat.

Definition islower (c : ascii) : bool :=
  (97 <=? code c)%nat && (code c <=? 122)%nat.

Definition isdigit (c : ascii) : bool :=
  (48 <=? code c)%nat && (code c <=? 57)%nat.

Definition upper (c : ascii) : ascii :=
  if islower c then ascii_of_nat (code c - 32) else c.

Definition lower (c : ascii) : ascii :=
  if isupper c then ascii_of_nat (code c + 32) else c.

(** [str.isspace] on one character: tab to carriage return, the four
    separators 28 to 31, and the space. *)
Definition isspace (c : ascii) : bool :=
  ((9 <=? code c)%nat && (code c <=? 13)%nat)
  || ((28 <=? code c)%nat && (code c <=? 32)%nat).

(** [str.lstrip()], [str.rstrip()] and [str.strip()] on the characters of
    a string. *)
Fixpoint lstrip (l : list ascii) : list ascii :=
  match l with
  | [] => []
  | c :: rest => if isspace c then lstrip rest else l
  end.

Fixpoint rstrip (l : list ascii) : list ascii :=
  match l with
  | [] => []
  | c :: rest =>
      match rstrip rest with
      | [] => if isspace c then [] else [c]
      | kept => c :: kept
      end
  end.

Definition strip (l : list ascii) : list ascii := rstrip (lstrip l).

(** ** Lists *)

Definition len {A} (l : list A) : Z := Z.of_nat (length l).

(** [l[i] = x]: negative indices count from the end, anything outside
    [-len l .. len l - 1] raises [IndexError]. *)
Definition setitem {A} (l : list A) (i : Z) (x : A) : outcome (list A) :=
  if (0 <=? i) && (i <? len l) then Return (<[Z.to_nat i := x]> l)
  else if (- len l <=? i) && (i <? 0) then Return (<[Z.to_nat (len l + i) := x]> l)
  else Raise IndexError.

(** [l.insert(i, x)]: the index is clamped to [0 .. len l]. *)
Definition insert_at {A} (l : list A) (i : Z) (x : A) : list A :=
  let j := if i <? 0 then Z.max 0 (len l + i) else Z.min i (len l) in
  take (Z.to_nat j) l ++ x :: drop (Z.to_nat j) l.

(** [l[i:j]] for [0 <= i]. *)
Definition slice {A} (l : list A) (i j : Z) : list A :=
  take (Z.to_nat (Z.min j (len l)) - Z.to_nat i)%nat (drop (Z.to_nat i) l).

(** [range(0, stop, step)]: a zero step raises [ValueError], a negative
    one yields nothing for [0 <= stop]; otherwise the multiples of [step]
    below [stop], of which there are [(stop + step - 1) // step]. *)
Definition range0 (stop step : Z) : outcome (list Z) :=
  if step =? 0 then Raise ValueError
  else if (step <? 0) || (stop <=? 0) then Return []
  else Return (map (fun k => Z.of_nat k * step)
                   (seq 0 (Z.to_nat ((stop + step - 1) / step)))).

(** [a // b] on Python integers. *)
Definition floordiv (a b : Z) : outcome Z :=
  if b =? 0 then Raise ZeroDivisionError else Return (a / b).

(** [itertools.product] applied to the pools: the leftmost pool varies
    slowest. *)
Fixpoint product {A} (pools : list (list A)) : list (list A) :=
  match pools with
  | [] => [[]]
  | p :: ps => flat_map (fun y => map (cons y) (product ps)) p
  end.

(** ** The [random] module

    Every call of the generator consumes one entry of a tape of natural
    numbers (an exhausted tape keeps answering 0), so that a run is a
    function of the tape and every behaviour of the real generator is the
    run of some tape. *)

Abbreviation tape := (list nat) (only parsing).

Definition Rand (A : Type) : Type := tape -> outcome A * tape.

#[export] Instance Rand_ret : MRet Rand := fun A a t => (Return a, t).

#[export] Instance Rand_bind : MBind Rand := fun A B f m t =>
  match m t with
  | (Return a, t') => f a t'
  | (Raise e, t') => (Raise e, t')
  end.

Definition raise {A} (e : exn) : Rand A := fun t => (Raise e, t).

Definition lift {A} (o : outcome A) : Rand A := fun t => (o, t).

Definition draw : Rand nat := fun t =>
  match t with
  | [] => (Return 0%nat, [])
  | n :: t' => (Return n, t')
  end.

(** [random.randint(a, b)]: an integer of [a .. b], [ValueError] on an
    empty range. *)
Definition randint (a b : Z) : Rand Z :=
  if b <? a then raise ValueError
  else n ← draw; mret (a + Z.of_nat n mod (b - a + 1)).

(** [random.choice(seq)]: [IndexError] on an empty sequence. *)
Definition choice {A} (seq : list A) : Rand A :=
  match seq with
  | [] => raise IndexError
  | d :: _ => n ← draw; mret (nth (n mod length seq) seq d)
  end.

(** [random.shuffle(x)]:
    [for i in reversed(range(1, len(x))): j = randbelow(i + 1);
     x[i], x[j] = x[j], x[i]]. *)
Definition swap {A} (l : list A) (i j : nat) : list A :=
  match l !! i, l !! j with
  | Some a, Some b => <[j := a]> (<[i := b]> l)
  | _, _ => l
  end.

Fixpoint shuffle_from {A} (i : nat) (l : list A) : Rand (list A) :=
  match i with
  | O => mret l
  | S i' => n ← draw; shuffle_from i' (swap l i (n mod (i + 1)))
  end.

Definition shuffle {A} (l : list A) : Rand (list A) :=
  shuffle_from (length l - 1) l.

End Py.
Import Py.

(* ===================================================================== *)
(** * [class PasswordDB] *)
(* ===================================================================== *)

Module PasswordDB.

Abbreviation timestamp := Z (only parsing).

(** One row of [passwords (password TEXT PRIMARY KEY, created TIMESTAMP
    DEFAULT CURRENT_TIMESTAMP)]. A table lists its rows in insertion
    order. *)
Record row : Type := Row { password : string; created : timestamp }.

Abbreviation table := (list row) (only parsing).

#[export] Instance row_eq_dec : EqDecision row.
Proof. solve_decision. Defined.

Definition keys (t : table) : list string := map password t.

(** [CREATE TABLE IF NOT EXISTS]: a database file either has the table
    already or gets an empty one. *)
Definition _init_db (file : option table) : table := default [] file.

(** The rows [WHERE password = ?] selects. *)
Definition where_password (pwd : string) (t : table) : list row :=
  filter (fun r => password r = pwd) t.

(** [SELECT 1 FROM passwords WHERE password = ?]. *)
Definition select_1 (pwd : string) (t : table) : list Z :=
  map (fun _ => 1) (where_password pwd t).

Definition fetchone {A} (rows : list A) : option A := head rows.

(** [exists]: [fetchone() is not None]. *)
Definition db_exists (pwd : string) (t : table) : bool :=
  bool_decide (fetchone (select_1 pwd t) ≠ None).

(** Conflict clauses of [INSERT]: the default aborts the statement with
    an integrity error when the primary key is taken, [OR IGNORE] skips
    the row. *)
Inductive conflict : Type := OrAbort | OrIgnore.

(** [INSERT <conflict> INTO passwords (password) VALUES (?)] at time
    [now]. *)
Definition insert (c : conflict) (pwd : string) (now : timestamp) (t : table)
  : outcome table :=
  if bool_decide (pwd ∈ keys t)
  then match c with OrIgnore => Return t | OrAbort => Raise IntegrityError end
  else Return (t ++ [Row pwd now]).

(** [executemany]: the statement once per parameter, in order; [now k] is
    CURRENT_TIMESTAMP when the [k]-th statement runs. *)
Fixpoint executemany (c : conflict) (now : nat -> timestamp) (k : nat)
    (params : list string) (t : table) : outcome table :=
  match params with
  | [] => Return t
  | pwd :: rest =>
      match insert c pwd (now k) t with
      | Return t' => executemany c now (S k) rest t'
      | Raise e => Raise e
      end
  end.

(** [insert_batch] on a database that can be opened and written: what the
    statements do to the table. A database that is locked or cannot be
    opened makes the call raise and leaves the table as it is; that is the
    [fault] of the step of the process that calls it. *)
Definition insert_batch (now : nat -> timestamp) (passwords : list string)
    (t : table) : outcome table :=
  executemany OrIgnore now 0 passwords t.

End PasswordDB.
Import PasswordDB.

(* ===================================================================== *)
(** * [class PasswordConfig] and the global [config] *)
(* ===================================================================== *)

Module config.

(** The substitution table; every glyph is one character. *)
Definition substitutions : gmap ascii (list ascii) :=
  list_to_map
    [ ("a"%char, ["@"; "4"]%char);
      ("b"%char, ["8"]%char);
      ("e"%char, ["3"]%char);
      ("g"%char, ["9"]%char);
      ("i"%char, ["1"; "!"]%char);
      ("o"%char, ["0"]%char);
      ("s"%char, ["$"; "5"]%char);
      ("t"%char, ["7"]%char) ].

Definition common_numbers : list ascii :=
  ["0"; "1"; "2"; "3"; "4"; "5"; "6"; "7"; "8"; "9"]%char.

Definition common_symbols : list ascii :=
  ["!"; "@"; "#"; "$"; "%"; "&"]%char.

Definition min_word_length : Z := 4.
Definition max_word_length : Z := 8.
Definition batch_size : Z := 10000.

(** [cpu_count() - 1 or 1]: [or] yields its left operand unless it is 0. *)
Definition max_workers (cpu_count : Z) : Z :=
  if cpu_count - 1 =? 0 then 1 else cpu_count - 1.

End config.

(** The fallback list of [load_dictionary]. *)
Definition fallback_words : list string :=
  ["cat"; "dog"; "sun"; "bird"; "password"; "hello"].

(* ===================================================================== *)
(** * [load_dictionary], [generate_variations] and [enhance_password] *)
(* ===================================================================== *)

Definition chars (s : string) : list ascii := list_ascii_of_string s.
Definition join (l : list ascii) : string := string_of_list_ascii l.

(** [load_dictionary]: [file] is [None] when opening the dictionary raises
    [FileNotFoundError], and the lines of the file, each with its line end,
    otherwise. *)
Definition load_dictionary (file : option (list string)) : list string :=
  match file with
  | Some lines =>
      map (fun word => join (map lower (strip (chars word))))
          (filter (fun word =>
                     config.min_word_length <= len (strip (chars word))
                     /\ len (strip (chars word)) <= config.max_word_length)
                  lines)
  | None => fallback_words
  end.

Definition generate_variations (word : string) : list string :=
  let char_options :=
    map (fun char => default [char] (config.substitutions !! char) ++ [upper char])
        (map lower (chars word)) in
  map join (product char_options).

Definition any {A} (f : A -> bool) (l : list A) : bool := existsb f l.

Definition is_symbol (c : ascii) : bool := bool_decide (c ∈ config.common_symbols).

(** In [pwd[randint(..)] = choice(..).upper()] the right-hand side is
    evaluated before the subscript; the arguments of [insert] are evaluated
    left to right. *)
Definition enhance_password (password : string) : Rand string :=
  let pwd := chars password in
  pwd ← (if negb (any isupper pwd)
         then s ← choice config.common_symbols;
              i ← randint 0 (len pwd - 1);
              lift (setitem pwd i (upper s))
         else mret pwd);
  pwd ← (if negb (any isdigit pwd)
         then i ← randint 1 (len pwd);
              d ← choice config.common_numbers;
              mret (insert_at pwd i d)
         else mret pwd);
  pwd ← (if negb (any is_symbol pwd)
         then i ← randint 1 (len pwd);
              s ← choice config.common_symbols;
              mret (insert_at pwd i s)
         else mret pwd);
  mret (join pwd).

(* ===================================================================== *)
(** * [main]: the word partition *)
(* ===================================================================== *)

(** [chunk_size = len(words) // config.max_workers] and
    [word_chunks = [words[i:i+chunk_size]
                    for i in range(0, len(words), chunk_size)]]. *)
Definition word_chunks (words : list string) (max_workers : Z)
  : outcome (list (list string)) :=
  chunk_size ← floordiv (len words) max_workers;
  starts ← range0 (len words) chunk_size;
  mret (map (fun i => slice words i (i + chunk_size)) starts).


(* ===================================================================== *)
(** * The processes *)
(* ===================================================================== *)

(** What the processes share: [output_queue = manager.Queue(maxsize=100000)],
    [stop_event = manager.Event()] and the database file. *)
Record shared : Type := Shared {
  output_queue : list string;
  stop_event : bool;
  db : table
}.

Definition maxsize : Z := 100000.

Definition full (queue : list string) : bool := maxsize <=? len queue.

(** A step of a process is a function of the shared state, the state of
    the process and the choices the process does not control: the tape its
    random generator reads, the clock of the database, and [fault], an
    exception that the blocking queue operation or the database call of
    this step raises, if any. [None] says the process cannot move: it has
    exited, or it is blocked. Reading the event and [output_queue.empty()]
    do not fail. *)

(** ** [worker_process] *)

(** Where a worker stands. *)
Inductive wloc : Type :=
  | WWhile                                        (* line 120 *)
  | WWords (words : list string)                  (* line 122, words left *)
  | WVars (vars words : list string)              (* line 123, variations left *)
  | WPut (enhanced : string) (vars words : list string)   (* line 129 *)
  | WStop (vars words : list string)              (* line 132 *)
  | WReturned
  | WRaised (e : exn).

(** What a worker did with a candidate (history, read by no step). *)
Inductive wevent : Type :=
  | EvSeen (enhanced : string)                (* line 127: in bloom_filter *)
  | EvExists (enhanced : string) (known : bool)   (* line 128: db.exists *)
  | EvPut (enhanced : string).                (* line 129 returned *)

Record worker : Type := Worker {
  word_chunk : list string;
  bloom_filter : gset string;
  wpc : wloc;
  trail : list wevent
}.

Definition worker_at (w : worker) (pc : wloc) : worker :=
  Worker (word_chunk w) (bloom_filter w) pc (trail w).

Definition worker_did (w : worker) (ev : wevent) (pc : wloc) : worker :=
  Worker (word_chunk w) (bloom_filter w) pc (trail w ++ [ev]).

Definition put (sh : shared) (item : string) : shared :=
  Shared (output_queue sh ++ [item]) (stop_event sh) (db sh).

Definition worker_step (t : tape) (fault : option exn) (sh : shared) (w : worker)
  : option (shared * worker) :=
  match wpc w with
  | WWhile =>
      if stop_event sh then Some (sh, worker_at w WReturned)
      else match shuffle (word_chunk w) t with
           | (Return chunk, _) =>
               Some (sh, Worker chunk (bloom_filter w) (WWords chunk) (trail w))
           | (Raise e, _) => Some (sh, worker_at w (WRaised e))
           end
  | WWords [] => Some (sh, worker_at w WWhile)
  | WWords (word :: words) =>
      Some (sh, worker_at w (WVars (generate_variations word) words))
  | WVars [] words => Some (sh, worker_at w (WWords words))
  | WVars (variation :: vars) words =>
      match enhance_password variation t with
      | (Raise e, _) => Some (sh, worker_at w (WRaised e))
      | (Return enhanced, _) =>
          if bool_decide (enhanced ∈ bloom_filter w)
          then Some (sh, worker_did w (EvSeen enhanced) (WStop vars words))
          else match fault with
               | Some e => Some (sh, worker_at w (WRaised e))
               | None =>
                   if db_exists enhanced (db sh)
                   then Some (sh, worker_did w (EvExists enhanced true)
                                    (WStop vars words))
                   else Some (sh, worker_did w (EvExists enhanced false)
                                    (WPut enhanced vars words))
               end
      end
  | WPut enhanced vars words =>
      match fault with
      | Some e => Some (sh, worker_at w (WRaised e))
      | None =>
          if full (output_queue sh) then None
          else Some (put sh enhanced,
                     Worker (word_chunk w) ({[enhanced]} ∪ bloom_filter w)
                            (WStop vars words) (trail w ++ [EvPut enhanced]))
      end
  | WStop vars words =>
      if stop_event sh then Some (sh, worker_at w WReturned)
      else Some (sh, worker_at w (WVars vars words))
  | WReturned | WRaised _ => None
  end.

(** A worker as it enters its loop: [PasswordDB(config.db_path)] at line
    117 has returned and the set is empty. *)
Definition start_worker (chunk : list string) : worker :=
  Worker chunk ∅ WWhile [].

(** The candidates a worker has pushed, oldest first. *)
Definition pushed (tr : list wevent) : list string :=
  omap (fun ev => match ev with EvPut e => Some e | _ => None end) tr.

(** ** [writer_process] *)

Inductive rloc : Type :=
  | RWhile            (* line 140: stop_event.is_set() *)
  | RWhileEmpty       (* line 140: output_queue.empty(), the event being set *)
  | RTry              (* line 142 *)
  | RExcept (e : exn) (* line 151 *)
  | RFinal            (* line 155 *)
  | RReturned
  | RRaised (e : exn).

Inductive log_record : Type :=
  | LogInserted (n : Z)        (* logger.info, line 147 *)
  | LogWriterError (e : exn).  (* logger.error, line 152 *)

(** [dequeued] and [flushes] are history: the items [get] returned, and
    the batches handed to [insert_batch] with whether the call returned. *)
Record writer : Type := Writer {
  batch : list string;
  rpc : rloc;
  log : list log_record;
  dequeued : list string;
  flushes : list (list string * bool)
}.

Definition writer_at (r : writer) (pc : rloc) : writer :=
  Writer (batch r) pc (log r) (dequeued r) (flushes r).

Definition flush_failed (r : writer) (pc : rloc) : writer :=
  Writer (batch r) pc (log r) (dequeued r) (flushes r ++ [(batch r, false)]).

Definition with_db (sh : shared) (t : table) : shared :=
  Shared (output_queue sh) (stop_event sh) t.

Definition writer_step (now : nat -> timestamp) (fault : option exn)
    (sh : shared) (r : writer) : option (shared * writer) :=
  match rpc r with
  | RWhile =>
      if stop_event sh then Some (sh, writer_at r RWhileEmpty)
      else Some (sh, writer_at r RTry)
  | RWhileEmpty =>
      match output_queue sh with
      | [] => Some (sh, writer_at r RFinal)
      | _ :: _ => Some (sh, writer_at r RTry)
      end
  | RTry =>
      if len (batch r) <? config.batch_size then
        (* pwd = output_queue.get(timeout=1); batch.append(pwd) *)
        match fault, output_queue sh with
        | Some e, _ => Some (sh, writer_at r (RExcept e))
        | None, [] => Some (sh, writer_at r (RExcept Empty))
        | None, pwd :: queue =>
            Some (Shared queue (stop_event sh) (db sh),
                  Writer (batch r ++ [pwd]) RTry (log r)
                         (dequeued r ++ [pwd]) (flushes r))
        end
      else
        (* db.insert_batch(batch); logger.info(..); batch = [] *)
        match fault, insert_batch now (batch r) (db sh) with
        | Some e, _ | None, Raise e => Some (sh, flush_failed r (RExcept e))
        | None, Return t =>
            Some (with_db sh t,
                  Writer [] RWhile (log r ++ [LogInserted (len (batch r))])
                         (dequeued r) (flushes r ++ [(batch r, true)]))
        end
  | RExcept e =>
      if stop_event sh then Some (sh, writer_at r RWhile)
      else Some (sh, Writer (batch r) RWhile (log r ++ [LogWriterError e])
                            (dequeued r) (flushes r))
  | RFinal =>
      match batch r with
      | [] => Some (sh, writer_at r RReturned)
      | _ :: _ =>
          match fault, insert_batch now (batch r) (db sh) with
          | Some e, _ | None, Raise e => Some (sh, flush_failed r (RRaised e))
          | None, Return t =>
              Some (with_db sh t,
                    Writer (batch r) RReturned (log r) (dequeued r)
                           (flushes r ++ [(batch r, true)]))
          end
      end
  | RReturned | RRaised _ => None
  end.

(** The writer as it enters its loop: [PasswordDB(config.db_path)] at line
    137 has returned and the batch is empty. *)
Definition start_writer : writer := Writer [] RWhile [] [] [].

(** The candidates of the batches [insert_batch] returned for. *)
Definition committed_of (fl : list (list string * bool)) : list string :=
  concat (omap (fun f : list string * bool => if f.2 then Some f.1 else None) fl).

Definition committed (r : writer) : list string := committed_of (flushes r).

(** ** [main]: start, monitor loop and joins *)

Inductive mloc : Type :=
  | MWhile            (* line 196 *)
  | MSleep            (* lines 197-198 *)
  | MJoin (i : nat)   (* line 202, the worker joined next *)
  | MJoinWriter       (* line 203 *)
  | MDone.

(** One line of line 198. *)
Record report : Type := Report { queue_size : Z; workers_active : Z }.

Record monitor : Type := Monitor { mpc : mloc; reports : list report }.

Record system : Type := System {
  sh : shared;
  workers : list worker;
  wr : writer;
  mon : monitor
}.

Definition is_alive (w : worker) : bool :=
  match wpc w with WReturned | WRaised _ => false | _ => true end.

Definition writer_is_alive (r : writer) : bool :=
  match rpc r with RReturned | RRaised _ => false | _ => true end.

(** [sum(p.is_alive() for p in workers)]. *)
Definition active (ws : list worker) : Z :=
  len (filter (fun w => is_alive w = true) ws).

Definition monitor_at (s : system) (pc : mloc) : system :=
  System (sh s) (workers s) (wr s) (Monitor pc (reports (mon s))).

Definition monitor_step (s : system) : option system :=
  match mpc (mon s) with
  | MWhile =>
      if stop_event (sh s) then Some (monitor_at s (MJoin 0))
      else Some (monitor_at s MSleep)
  | MSleep =>
      Some (System (sh s) (workers s) (wr s)
              (Monitor MWhile
                 (reports (mon s)
                  ++ [Report (len (output_queue (sh s))) (active (workers s))])))
  | MJoin i =>
      match workers s !! i with
      | None => Some (monitor_at s MJoinWriter)
      | Some w => if is_alive w then None else Some (monitor_at s (MJoin (S i)))
      end
  | MJoinWriter =>
      if writer_is_alive (wr s) then None else Some (monitor_at s MDone)
  | MDone => None
  end.

(** What can happen next: a process moves, or SIGINT or SIGTERM arrives
    and [shutdown] sets the event. [ActSignal] is the handler running in a
    process that is not waiting for a reply of the manager at that moment:
    [stop_event.set()] is then a call of its own. *)
Inductive action : Type :=
  | ActWorker (i : nat) (t : tape) (fault : option exn)
  | ActWriter (now : nat -> timestamp) (fault : option exn)
  | ActMonitor
  | ActSignal.

(** An action that is not enabled leaves the system as it is. *)
Definition step (a : action) (s : system) : system :=
  match a with
  | ActWorker i t fault =>
      match workers s !! i with
      | Some w =>
          match worker_step t fault (sh s) w with
          | Some (sh', w') => System sh' (<[i := w']> (workers s)) (wr s) (mon s)
          | None => s
          end
      | None => s
      end
  | ActWriter now fault =>
      match writer_step now fault (sh s) (wr s) with
      | Some (sh', r') => System sh' (workers s) r' (mon s)
      | None => s
      end
  | ActMonitor => default s (monitor_step s)
  | ActSignal =>
      System (Shared (output_queue (sh s)) true (db (sh s)))
             (workers s) (wr s) (mon s)
  end.

Definition run (schedule : list action) (s : system) : system :=
  foldl (fun (s : system) (a : action) => step a s) s schedule.

(** [main] up to the monitor loop: the database is initialised, the words
    are split, one worker per chunk and the writer are started. [words] is
    what [load_dictionary] returned. *)
Definition main (file : option table) (words : list string) (cpu_count : Z)
  : outcome system :=
  let db := _init_db file in
  word_chunks ← word_chunks words (config.max_workers cpu_count);
  mret (System (Shared [] false db) (map start_worker word_chunks)
               start_writer (Monitor MWhile [])).

(* ===================================================================== *)
(** * Notions the properties are stated with *)
(* ===================================================================== *)

(** What [executemany] adds: a row for every parameter whose key is not
    there yet, the first time it comes. *)
Fixpoint new_rows (now : nat -> timestamp) (k : nat) (params : list string)
    (present : list string) : list row :=
  match params with
  | [] => []
  | pwd :: rest =>
      if bool_decide (pwd ∈ present) then new_rows now (S k) rest present
      else Row pwd (now k) :: new_rows now (S k) rest (present ++ [pwd])
  end.

(** Total correctness of a computation that draws random numbers: on
    every tape it returns, and what it returns satisfies [Q]. *)
Definition ensures {A} (m : Rand A) (Q : A -> Prop) : Prop :=
  forall t, exists a t', m t = (Return a, t') /\ Q a.

(** The set a worker's [bloom_filter] holds after the events [pre]. *)
Definition seen_at (pre : list wevent) : gset string := list_to_set (pushed pre).

(** What lines 127-130 allow an event [ev] of a worker's trail to be, given
    the events [pre] before it and [post] after it. *)
Definition event_ok (pre : list wevent) (ev : wevent) (post : list wevent) : Prop :=
  match ev with
  | EvSeen e => e ∈ seen_at pre
  | EvExists e known =>
      (e ∉ seen_at pre)
      /\ (known = true -> forall e' post', post <> EvPut e' :: post')
  | EvPut e =>
      (e ∉ seen_at pre) /\ exists pre', pre = pre' ++ [EvExists e false]
  end.

(** A worker whose set holds what it has pushed and whose every event is
    allowed. *)
Definition filtered (w : worker) : Prop :=
  bloom_filter w = seen_at (trail w)
  /\ forall pre ev post, trail w = pre ++ ev :: post -> event_ok pre ev post.

(** The invariant of a worker: its trail is filtered, it has pushed no
    string twice, and when it stands at the push the store has just answered
    that the candidate is absent. *)
Definition worker_inv (w : worker) : Prop :=
  filtered w
  /\ NoDup (pushed (trail w))
  /\ forall e vars words, wpc w = WPut e vars words ->
       exists pre, trail w = pre ++ [EvExists e false].

(** What the writer holds in memory and has not committed. *)
Definition unflushed (r : writer) : list string :=
  match rpc r with RReturned => [] | _ => batch r end.

(** The invariant of the writer, against the shared state: nothing it
    took from the queue is lost, what it committed is in the database, and
    it is past its loop only if the event is set. *)
Definition writer_inv (sh : shared) (r : writer) : Prop :=
  dequeued r = committed r ++ unflushed r
  /\ Forall (fun pwd => pwd ∈ keys (db sh)) (committed r)
  /\ match rpc r with
     | RWhileEmpty | RFinal | RReturned => stop_event sh = true
     | RRaised _ =>
         stop_event sh = true /\ last (flushes r) = Some (batch r, false)
     | _ => True
     end.




(** No count is above one that comes before it. *)
Fixpoint never_up (counts : list Z) : Prop :=
  match counts with
  | [] => True
  | c :: rest => Forall (fun c' => c' <= c) rest /\ never_up rest
  end.

(** The invariant of the monitor: no report is above the number of
    processes started or below the number alive now, and the reports never
    go up. *)
Definition monitor_inv (s : system) : Prop :=
  Forall (fun r => active (workers s) <= workers_active r <= len (workers s))
         (reports (mon s))
  /\ never_up (map workers_active (reports (mon s))).

Definition system_inv (s : system) : Prop :=
  Forall worker_inv (workers s) /\ writer_inv (sh s) (wr s) /\ monitor_inv s.


(** A run used to exercise the theorems: three fallback words per worker;
    the monitor reports, worker 0 pushes its first candidate, the writer
    takes it and times out on the empty queue, the signal arrives, the
    writer leaves its loop and flushes, and worker 0 pushes one more
    candidate before it sees the event and returns. *)
Definition demo_clock : nat -> Z := fun k => 1700000000 + Z.of_nat k.

Definition demo_system : system :=
  System (Shared [] false [])
         (map start_worker [["cat"; "dog"; "sun"]; ["bird"; "password"; "hello"]])
         start_writer (Monitor MWhile []).

Definition demo_start : list action :=
  [ ActMonitor; ActMonitor ]
  ++ replicate 5 (ActWorker 0 [] None)
  ++ [ ActWriter demo_clock None ].

Definition demo_schedule : list action :=
  demo_start
  ++ replicate 2 (ActWriter demo_clock None)
  ++ [ ActSignal ]
  ++ replicate 6 (ActWriter demo_clock None)
  ++ replicate 3 (ActWorker 0 [] None)
  ++ [ ActMonitor; ActMonitor ].

(** ** Words of ASCII characters *)

Definition ascii_word (word : string) : Prop :=
  Forall (fun c => isascii c = true) (chars word).

(** ** The filter of a worker against the store *)

(** What lines 127-130 do with the candidate [enhanced] at one step, the
    worker being [w], the shared state [sh], and [fault] what the call of
    [exists] raises, if any. A candidate in [bloom_filter] is skipped and the
    store is not asked. For any other the store is asked, and the worker
    goes to the push exactly if the store, as it is at that moment, does not
    hold the candidate. The step pushes nothing and adds nothing to the
    set. *)
Definition filtered_step (fault : option exn) (sh : shared) (w : worker)
    (enhanced : string) (vars words : list string)
    (sh' : shared) (w' : worker) : Prop :=
  sh' = sh /\ bloom_filter w' = bloom_filter w
  /\ if bool_decide (enhanced ∈ bloom_filter w)
     then wpc w' = WStop vars words /\ trail w' = trail w ++ [EvSeen enhanced]
     else match fault with
          | Some e => wpc w' = WRaised e /\ trail w' = trail w
          | None =>
              trail w' = trail w
                         ++ [EvExists enhanced (db_exists enhanced (db sh))]
              /\ wpc w' = if db_exists enhanced (db sh)
                          then WStop vars words
                          else WPut enhanced vars words
          end.

(** A step of a worker either leaves queue and set alone, or is the push
    of line 129 followed by line 130: the candidate the worker stood with
    goes to the end of the queue and into the set. *)
Definition pushes_at_put_only (sh : shared) (w : worker)
    (sh' : shared) (w' : worker) : Prop :=
  (output_queue sh' = output_queue sh /\ bloom_filter w' = bloom_filter w
   /\ pushed (trail w') = pushed (trail w))
  \/ exists e vars words,
       wpc w = WPut e vars words
       /\ output_queue sh' = output_queue sh ++ [e]
       /\ bloom_filter w' = {[e]} ∪ bloom_filter w
       /\ pushed (trail w') = pushed (trail w) ++ [e].

(** Worker [i] checked the candidate [e] at moment [j] of the run
    [schedule] from [s0]: its step [j] was taken at line 123 on a variation
    that [enhance_password] turned into [e], the call of [exists] did not
    fail, and [e] was neither in its [bloom_filter] nor in the database as
    they were at that moment. *)
Definition checked_at (s0 : system) (schedule : list action) (i : nat)
    (e : string) (j : nat) : Prop :=
  exists t variation vars words wj,
    schedule !! j = Some (ActWorker i t None)
    /\ workers (run (take j schedule) s0) !! i = Some wj
    /\ wpc wj = WVars (variation :: vars) words
    /\ (enhance_password variation t).1 = Return e
    /\ (e ∉ bloom_filter wj)
    /\ db_exists e (db (sh (run (take j schedule) s0))) = false.

(** Every candidate a worker has pushed, and the one it is about to push,
    it has checked before. *)
Definition checks_before_push (s0 : system) (schedule : list action)
    (i : nat) (w : worker) : Prop :=
  (forall e, e ∈ pushed (trail w) -> exists j, checked_at s0 schedule i e j)
  /\ (forall e vars words, wpc w = WPut e vars words ->
        (e ∉ bloom_filter w) /\ exists j, checked_at s0 schedule i e j).

(** ** What the writer holds and what it lost *)






(** ** Signals that find a process inside a call to the manager

    [signal.signal] is called before the processes are forked (lines
    177-178), so a signal sent to the whole process group runs [shutdown] in
    the workers and in the writer too. The [stop_event.set()] of the
    handler and the call the process is waiting in ([is_set], [empty],
    [get], [put], [qsize]) then use one connection to the manager, and the
    handler reads the reply that was meant for the call: a candidate that
    [get] took from the queue is lost and [get] returns [None]. The model
    does not follow a run beyond such a moment. *)

Inductive process : Type :=
  | PMain
  | PWorker (i : nat)
  | PWriter.

(** Whether the next step of a process is a call to the manager. *)
Definition at_manager_call (p : process) (s : system) : bool :=
  match p with
  | PMain =>
      match mpc (mon s) with MWhile | MSleep => true | _ => false end
  | PWorker i =>
      match workers s !! i with
      | Some w =>
          match wpc w with
          | WWhile | WStop _ _ | WPut _ _ _ => true
          | _ => false
          end
      | None => false
      end
  | PWriter =>
      match rpc (wr s) with
      | RWhile | RWhileEmpty | RExcept _ => true
      | RTry => len (batch (wr s)) <? config.batch_size
      | _ => false
      end
  end.

(** What happens in a run: an action, or a signal that is handled in
    process [p] while [p] waits for the reply of the manager. *)
Inductive occurrence : Type :=
  | Does (a : action)
  | SignalInCall (p : process).

(** [None]: the replies of the manager are out of step with the calls of
    a process, and the run is not followed. A [SignalInCall] that does not
    find its process in such a call does nothing. *)
Definition occur (o : occurrence) (s : system) : option system :=
  match o with
  | Does a => Some (step a s)
  | SignalInCall p => if at_manager_call p s then None else Some s
  end.

Definition follow (history : list occurrence) (s : system) : option system :=
  foldl (fun (s' : option system) (o : occurrence) => s' ≫= occur o)
        (Some s) history.

(** The actions of a history. *)
Definition actions (history : list occurrence) : list action :=
  omap (fun o => match o with Does a => Some a | SignalInCall _ => None end)
       history.

(** The demo run with a last step in which the final flush fails: the
    writer has taken one candidate and times out on the empty queue, the
    signal arrives, the writer leaves its loop, and [insert_batch] at line
    156 raises. *)
Definition failing_flush_schedule : list action :=
  demo_start
  ++ replicate 2 (ActWriter demo_clock None)
  ++ [ ActSignal ]
  ++ replicate 3 (ActWriter demo_clock None)
  ++ [ ActWriter demo_clock (Some OperationalError) ].


(** A list of characters that does not start with white space. *)
Definition clean_head (l : list ascii) : Prop :=
  match l with c :: _ => isspace c = false | [] => True end.

(** The glyphs [generate_variations] offers for one character. *)
Definition options (c : ascii) : list ascii :=
  default [c] (config.substitutions !! c) ++ [upper c].

(** The entries of [config.substitutions]. *)
Definition substitution_list : list (ascii * list ascii) :=
  [ ("a"%char, ["@"; "4"]%char); ("b"%char, ["8"]%char);
    ("e"%char, ["3"]%char); ("g"%char, ["9"]%char);
    ("i"%char, ["1"; "!"]%char); ("o"%char, ["0"]%char);
    ("s"%char, ["$"; "5"]%char); ("t"%char, ["7"]%char) ].

(** How [step a s] comes about. *)
Inductive step_kind (s s' : system) : Prop :=
  | StepNone : s' = s -> step_kind s s'
  | StepWorker i t fault w sh' w' :
      workers s !! i = Some w ->
      worker_step t fault (sh s) w = Some (sh', w') ->
      s' = System sh' (<[i := w']> (workers s)) (wr s) (mon s) ->
      step_kind s s'
  | StepWriter now fault sh' r' :
      writer_step now fault (sh s) (wr s) = Some (sh', r') ->
      s' = System sh' (workers s) r' (mon s) ->
      step_kind s s'
  | StepMonitor :
      monitor_step s = Some s' -> step_kind s s'
  | StepSignal :
      s' = System (Shared (output_queue (sh s)) true (db (sh s)))
                  (workers s) (wr s) (mon s) ->
      step_kind s s'.

(** Everything the workers have pushed. *)
Definition all_pushed (ws : list worker) : list string :=
  concat (map (fun w => pushed (trail w)) ws).

(** The queue keeps to its bound, holds with what the writer took exactly
    what the workers pushed, and keeps the order of each worker. *)
Definition queue_inv (s : system) : Prop :=
  len (output_queue (sh s)) <= maxsize
  /\ dequeued (wr s) ++ output_queue (sh s) ≡ₚ all_pushed (workers s)
  /\ Forall (fun w => pushed (trail w)
                      `sublist_of` dequeued (wr s) ++ output_queue (sh s))
            (workers s).

(** The writer keeps its batch to the configured size, hands
    [insert_batch] only batches that are not empty and not above it, and
    inside its loop only full ones. *)
Definition batch_inv (r : writer) : Prop :=
  len (batch r) <= config.batch_size
  /\ Forall (fun f : list string * bool => 0 < len f.1 <= config.batch_size)
            (flushes r)
  /\ (writer_is_alive r = true ->
      Forall (fun f : list string * bool => len f.1 = config.batch_size) (flushes r))
  /\ Forall (fun rec => match rec with
                        | LogInserted n => n = config.batch_size
                        | LogWriterError _ => True
                        end)
            (log r).

(** The joins of [main]: it leaves the monitor loop only with the event
    set, joins the workers in the order it started them, the writer after
    the last of them, and is done only when all have exited. *)
Definition join_inv (s : system) : Prop :=
  match mpc (mon s) with
  | MWhile | MSleep => True
  | MJoin i =>
      stop_event (sh s) = true
      /\ Forall (fun w => is_alive w = false) (take i (workers s))
  | MJoinWriter =>
      stop_event (sh s) = true
      /\ Forall (fun w => is_alive w = false) (workers s)
  | MDone =>
      stop_event (sh s) = true
      /\ Forall (fun w => is_alive w = false) (workers s)
      /\ writer_is_alive (wr s) = false
  end.

Definition digit_and_symbol (e : string) : Prop :=
  any isdigit (chars e) = true /\ any is_symbol (chars e) = true.

(** What a worker pushes, and what it is about to push, has a digit and a
    symbol. *)
Definition candidate_inv (w : worker) : Prop :=
  Forall digit_and_symbol (pushed (trail w))
  /\ forall e vars words, wpc w = WPut e vars words -> digit_and_symbol e.

(** The table keeps its keys unique, and a key is one of the table [db0]
    or of a batch the writer committed. *)
Definition db_inv (db0 : table) (s : system) : Prop :=
  NoDup (keys (db (sh s)))
  /\ Forall (fun k => k ∈ keys db0 \/ k ∈ committed (wr s)) (keys (db (sh s))).




(** The run above carried on to the end of [main]: the second worker sees
    the event and returns, and [main] joins the workers and the writer. *)
Definition demo_shutdown : list action :=
  demo_schedule ++ [ ActWorker 1 [] None ] ++ replicate 4 ActMonitor.

(* ===================================================================== *)
(** * The store *)
(* ===================================================================== *)

Section store.

Implicit Types (t : table) (pwd : string) (now : nat -> timestamp).

Lemma db_exists_keys pwd t : db_exists pwd t = true <-> pwd ∈ keys t.
Proof.
  unfold db_exists, fetchone, select_1, where_password, keys.
  rewrite bool_decide_eq_true.
  induction t as [|r t IH].
  - split; [done | by intros ?%elem_of_nil].
  - rewrite filter_cons. destruct (decide (password r = pwd)) as [<-|Hne]; simpl.
    + split; [intros _; left | done].
    + rewrite IH. split; [by right | by intros [?|?]%elem_of_cons].
Qed.

Lemma insert_or_ignore pwd ts t :
  insert OrIgnore pwd ts t
  = Return (if bool_decide (pwd ∈ keys t) then t else t ++ [Row pwd ts]).
Proof. unfold insert. by case_bool_decide. Qed.

Lemma executemany_or_ignore now k params t :
  executemany OrIgnore now k params t
  = Return (t ++ new_rows now k params (keys t)).
Proof.
  revert k t. induction params as [|pwd rest IH]; intros k t; simpl.
  - by rewrite app_nil_r.
  - rewrite insert_or_ignore. case_bool_decide.
    + apply IH.
    + rewrite IH. unfold keys. rewrite map_app, <- app_assoc. done.
Qed.

Lemma new_rows_fresh now k params present :
  Forall (fun pwd => pwd ∉ present) (map password (new_rows now k params present))
  /\ NoDup (map password (new_rows now k params present)).
Proof.
  revert k present. induction params as [|pwd rest IH]; intros k present; simpl.
  - split; constructor.
  - case_bool_decide as Hin; [apply IH|].
    destruct (IH (S k) (present ++ [pwd])) as [Hf Hn]. simpl. split.
    + constructor; [done|]. eapply Forall_impl; [exact Hf|].
      intros x Hx Hp. apply Hx. apply elem_of_app. by left.
    + constructor; [|done]. intros Hp.
      rewrite Forall_forall in Hf. apply (Hf _ Hp). apply elem_of_app. right. by left.
Qed.

Lemma new_rows_covers now k params present pwd :
  pwd ∈ params ->
  pwd ∈ present \/ pwd ∈ map password (new_rows now k params present).
Proof.
  revert k present. induction params as [|p rest IH]; intros k present Hin.
  - by apply elem_of_nil in Hin.
  - simpl. apply elem_of_cons in Hin as [->|Hin].
    + case_bool_decide; [by left | right; left].
    + case_bool_decide.
      * by apply IH.
      * destruct (IH (S k) (present ++ [p]) Hin) as [[?|Hp%list_elem_of_singleton]%elem_of_app|?].
        -- by left.
        -- subst. right. left.
        -- right. by right.
Qed.

Lemma new_rows_present now k params present :
  Forall (fun pwd => pwd ∈ present) params -> new_rows now k params present = [].
Proof.
  intros H. revert k. induction H as [|pwd rest Hin _ IH]; intros k; simpl; [done|].
  by rewrite bool_decide_eq_true_2.
Qed.

Lemma insert_batch_returns now passwords t :
  insert_batch now passwords t
  = Return (t ++ new_rows now 0 passwords (keys t)).
Proof. apply executemany_or_ignore. Qed.

Lemma insert_batch_keys now passwords t t' :
  insert_batch now passwords t = Return t' ->
  (forall pwd, pwd ∈ passwords -> pwd ∈ keys t')
  /\ (forall pwd, pwd ∈ keys t -> pwd ∈ keys t')
  /\ (NoDup (keys t) -> NoDup (keys t')).
Proof.
  rewrite insert_batch_returns. intros [= <-].
  unfold keys. rewrite map_app.
  destruct (new_rows_fresh now 0 passwords (map password t)) as [Hf Hn].
  split_and!.
  - intros pwd Hin. apply elem_of_app.
    by apply (new_rows_covers now 0 _ (map password t)).
  - intros pwd Hin. apply elem_of_app. by left.
  - intros Hnd. apply NoDup_app. split_and!; [done| |done].
    intros x Hx Hx'. rewrite Forall_forall in Hf. by apply (Hf x).
Qed.

Lemma no_row pwd t : pwd ∉ keys t -> where_password pwd t = [].
Proof.
  unfold keys, where_password. induction t as [|r t IH]; intros Hin; [done|].
  rewrite filter_cons_False.
  - apply IH. intros Hx. apply Hin. simpl. by right.
  - intros Heq. apply Hin. simpl. rewrite Heq. left.
Qed.

(** A key of a table with unique keys names exactly one row. *)
Lemma one_row pwd t :
  NoDup (keys t) -> pwd ∈ keys t -> length (where_password pwd t) = 1%nat.
Proof.
  induction t as [|r t IH]; intros Hnd Hin; unfold keys, where_password in *.
  - by apply elem_of_nil in Hin.
  - simpl in Hnd, Hin. apply NoDup_cons in Hnd as [Hr Hnd]. rewrite filter_cons.
    destruct (decide (password r = pwd)) as [<-|Hne]; simpl.
    + f_equal. apply length_zero_iff_nil. by apply no_row.
    + apply IH; [done|]. by apply elem_of_cons in Hin as [?|?].
Qed.

Example insert_batch_twice :
  insert_batch (fun k => 10 + Z.of_nat k) ["a"; "b"; "a"] [Row "b" 7]
  = Return [Row "b" 7; Row "a" 10]
  /\ insert_batch (fun k => 20 + Z.of_nat k) ["a"; "c"] [Row "b" 7; Row "a" 10]
     = Return [Row "b" 7; Row "a" 10; Row "c" 21].
Proof. split; reflexivity. Qed.

(** C7. Insert is idempotent: whatever two batches are inserted one after
    the other into a table with unique keys, neither call raises, every key
    of the first batch names exactly one row after it, every key of either
    batch names exactly one row after both, repeated keys inside a batch
    included; and a second batch that brings no new key leaves the table as
    it is. *)
Theorem insert_batch_idempotent now now' (first second : list string) t :
  NoDup (keys t) ->
  exists t1 t2,
    insert_batch now first t = Return t1
    /\ insert_batch now' second t1 = Return t2
    /\ Forall (fun pwd => length (where_password pwd t1) = 1%nat) first
    /\ Forall (fun pwd => length (where_password pwd t2) = 1%nat) (first ++ second)
    /\ (Forall (fun pwd => pwd ∈ first) second -> t2 = t1).
Proof.
  intros Hnd.
  destruct (insert_batch now first t) as [t1|e] eqn:H1;
    [|by rewrite insert_batch_returns in H1].
  destruct (insert_batch now' second t1) as [t2|e] eqn:H2;
    [|by rewrite insert_batch_returns in H2].
  destruct (insert_batch_keys _ _ _ _ H1) as (Hin1 & _ & Hnd1).
  destruct (insert_batch_keys _ _ _ _ H2) as (Hin2 & Hkeep2 & Hnd2).
  exists t1, t2. split_and!; [done|done| | |].
  - apply Forall_forall. intros pwd Hp. apply one_row; auto.
  - apply Forall_forall. intros pwd [Hp|Hp]%elem_of_app; apply one_row; auto.
  - intros Hsub. rewrite insert_batch_returns in H2. injection H2 as <-.
    rewrite new_rows_present, app_nil_r; [done|].
    eapply Forall_impl; [exact Hsub|]. auto.
Qed.

Lemma insert_batch_idempotent_witness :
  NoDup (keys [Row "b" 7])
  /\ exists t1 t2,
    insert_batch (fun k => 10 + Z.of_nat k) ["a"; "b"; "a"] [Row "b" 7] = Return t1
    /\ insert_batch (fun k => 20 + Z.of_nat k) ["a"] t1 = Return t2
    /\ Forall (fun pwd => length (where_password pwd t1) = 1%nat) ["a"; "b"; "a"]
    /\ Forall (fun pwd => length (where_password pwd t2) = 1%nat)
         (["a"; "b"; "a"] ++ ["a"])
    /\ (Forall (fun pwd => pwd ∈ ["a"; "b"; "a"]) ["a"] -> t2 = t1).
Proof.
  assert (Hnd : NoDup (keys [Row "b" 7])) by (apply NoDup_singleton).
  split; [exact Hnd|].
  exact (insert_batch_idempotent _ _ _ _ _ Hnd).
Defined.

End store.

(* ===================================================================== *)
(** * [enhance_password] *)
(* ===================================================================== *)

Section enhancement.

Lemma ensures_ret {A} (a : A) (Q : A -> Prop) : Q a -> ensures (mret a) Q.
Proof. intros H t. by exists a, t. Qed.

Lemma ensures_bind {A B} (m : Rand A) (f : A -> Rand B) (P : A -> Prop)
    (Q : B -> Prop) :
  ensures m P -> (forall a, P a -> ensures (f a) Q) -> ensures (m ≫= f) Q.
Proof.
  intros Hm Hf t. destruct (Hm t) as (a & t1 & Hrun & Ha).
  destruct (Hf a Ha t1) as (b & t2 & Hrun' & Hb).
  exists b, t2. unfold mbind, Rand_bind. by rewrite Hrun.
Qed.

Lemma ensures_weaken {A} (m : Rand A) (P Q : A -> Prop) :
  ensures m P -> (forall a, P a -> Q a) -> ensures m Q.
Proof. intros Hm HPQ t. destruct (Hm t) as (a & t' & ? & ?). eauto. Qed.

Lemma ensures_draw : ensures draw (fun _ => True).
Proof. intros [|n t]; simpl; eauto. Qed.

Lemma ensures_randint a b :
  a <= b -> ensures (randint a b) (fun n => a <= n <= b).
Proof.
  intros Hab. unfold randint. rewrite (proj2 (Z.ltb_ge b a)) by done.
  eapply ensures_bind; [apply ensures_draw|]. intros n _.
  apply ensures_ret.
  pose proof (Z.mod_pos_bound (Z.of_nat n) (b - a + 1)). lia.
Qed.

Lemma ensures_choice {A} (seq : list A) :
  seq <> [] -> ensures (choice seq) (fun x => x ∈ seq).
Proof.
  destruct seq as [|d seq]; [done|]. intros _. unfold choice.
  eapply ensures_bind; [apply ensures_draw|]. intros n _.
  apply ensures_ret. apply list_elem_of_In, nth_In.
  apply Nat.mod_upper_bound. done.
Qed.

Lemma ensures_setitem {A} (l : list A) i x :
  0 <= i < len l ->
  ensures (lift (setitem l i x)) (fun l' => l' = <[Z.to_nat i := x]> l).
Proof.
  intros Hi t. unfold lift, setitem.
  rewrite (proj2 (Z.leb_le 0 i)), (proj2 (Z.ltb_lt i (len l))) by lia.
  simpl. eauto.
Qed.

Lemma any_true {A} (f : A -> bool) l :
  any f l = true <-> exists x, x ∈ l /\ f x = true.
Proof.
  unfold any. rewrite existsb_exists.
  split; intros (x & Hx & Hf); exists x; by rewrite ?list_elem_of_In in *.
Qed.

Lemma any_false {A} (f : A -> bool) l :
  any f l = false <-> forall x, x ∈ l -> f x = false.
Proof.
  rewrite <- not_true_iff_false, any_true. split.
  - intros H x Hx. apply not_true_iff_false. intros Hf. apply H. eauto.
  - intros H (x & Hx & Hf). rewrite (H x Hx) in Hf. done.
Qed.

Lemma elem_of_setitem {A} (l : list A) i x y :
  y ∈ <[i := x]> l -> y = x \/ y ∈ l.
Proof.
  revert i. induction l as [|a l IH]; intros [|i]; simpl; try by right.
  - intros [->|?]%elem_of_cons; [by left | right; by right].
  - intros [->|[->|?]%IH]%elem_of_cons.
    + right. left.
    + by left.
    + right. by right.
Qed.

Lemma elem_of_insert_at {A} (l : list A) i x y :
  y ∈ insert_at l i x <-> y = x \/ y ∈ l.
Proof.
  unfold insert_at.
  set (j := Z.to_nat _). rewrite <- (take_drop j l) at 3.
  rewrite !elem_of_app, elem_of_cons. tauto.
Qed.

Lemma length_insert_at {A} (l : list A) i x :
  length (insert_at l i x) = S (length l).
Proof.
  unfold insert_at. set (j := Z.to_nat _).
  rewrite length_app. simpl. rewrite length_take, length_drop. lia.
Qed.

Lemma chars_join l : chars (join l) = l.
Proof. apply list_ascii_of_string_of_list_ascii. Qed.

Lemma symbols_plain :
  Forall (fun c => is_symbol (upper c) = true /\ is_symbol c = true
                   /\ isupper (upper c) = false /\ isupper c = false)
         config.common_symbols.
Proof. repeat constructor. Qed.

Lemma numbers_plain :
  Forall (fun c => isdigit c = true /\ isupper c = false) config.common_numbers.
Proof. repeat constructor. Qed.

Example generate_variations_cat :
  generate_variations "cat"
  = ["c@7"; "c@T"; "c47"; "c4T"; "cA7"; "cAT";
     "C@7"; "C@T"; "C47"; "C4T"; "CA7"; "CAT"].
Proof. reflexivity. Qed.

(** Draws 3 and 1 pick the symbol [$] and position 1; draws 4 and 1 pick
    position 2 and the digit [1]. *)
Example enhance_password_abc :
  enhance_password "abc" [3; 1; 4; 1]%nat = (Return "a$1c"%string, [])
  /\ enhance_password "ABC" [3; 1; 4; 1]%nat = (Return "A@1BC"%string, []).
Proof. split; reflexivity. Qed.

(** What [enhance_password] achieves on a candidate that is not empty: it
    returns, the result has a digit and a symbol, and it has an uppercase
    letter only if the candidate had one. *)
Lemma enhance_password_post password :
  password <> ""%string ->
  ensures (enhance_password password) (fun out =>
    any isdigit (chars out) = true
    /\ any is_symbol (chars out) = true
    /\ (any isupper (chars password) = false -> any isupper (chars out) = false)).
Proof.
  intros Hne. unfold enhance_password.
  assert (Hlen : 0 < len (chars password)).
  { destruct password; [done|]. unfold len. simpl. lia. }
  pose proof symbols_plain as Hsym. rewrite Forall_forall in Hsym.
  pose proof numbers_plain as Hnum. rewrite Forall_forall in Hnum.
  eapply ensures_bind with
    (P := fun pwd => 0 < len pwd
       /\ (any isupper (chars password) = false -> any isupper pwd = false)).
  { destruct (any isupper (chars password)) eqn:Hup; cbn [negb].
    - by apply ensures_ret.
    - eapply ensures_bind; [by apply ensures_choice|]. intros s Hs; apply Hsym in Hs as (Hs1 & Hs2 & Hs3 & Hs4).
      eapply ensures_bind; [apply ensures_randint; lia|]. intros i Hi; cbv beta in Hi.
      eapply ensures_weaken; [apply ensures_setitem; lia|]. intros pwd ->.
      split.
      + unfold len in *. rewrite length_insert. done.
      + intros _. apply any_false. intros y [->|Hy]%elem_of_setitem.
        * done.
        * eapply any_false in Hup; eauto.
      }
  intros pwd1 [Hlen1 Hup1].
  eapply ensures_bind with
    (P := fun pwd => 0 < len pwd /\ any isdigit pwd = true
       /\ (any isupper (chars password) = false -> any isupper pwd = false)).
  { destruct (any isdigit pwd1) eqn:Hdig; cbn [negb].
    - by apply ensures_ret.
    - eapply ensures_bind; [apply ensures_randint; lia|]. intros i Hi; cbv beta in Hi.
      eapply ensures_bind; [by apply ensures_choice|]. intros d Hd; apply Hnum in Hd as [Hd1 Hd2].
      apply ensures_ret. split_and!.
      + unfold len in *. rewrite length_insert_at. lia.
      + apply any_true. exists d. rewrite elem_of_insert_at.
        split; [by left | done].
      + intros Hup. apply any_false. intros y [->|Hy]%elem_of_insert_at.
        * done.
        * specialize (Hup1 Hup). eapply any_false in Hup1; eauto. }
  intros pwd2 (Hlen2 & Hdig2 & Hup2).
  eapply ensures_bind with
    (P := fun pwd => any isdigit pwd = true /\ any is_symbol pwd = true
       /\ (any isupper (chars password) = false -> any isupper pwd = false)).
  { destruct (any is_symbol pwd2) eqn:Hsy2; cbn [negb].
    - by apply ensures_ret.
    - eapply ensures_bind; [apply ensures_randint; lia|]. intros i Hi; cbv beta in Hi.
      eapply ensures_bind; [by apply ensures_choice|]. intros s Hs; apply Hsym in Hs as (Hs1 & Hs2 & Hs3 & Hs4).
      apply ensures_ret. split_and!.
      + apply any_true in Hdig2 as (d & Hd & Hdd). apply any_true.
        exists d. rewrite elem_of_insert_at. auto.
      + apply any_true. exists s. rewrite elem_of_insert_at.
        split; [by left | done].
      + intros Hup. apply any_false. intros y [->|Hy]%elem_of_insert_at.
        * done.
        * specialize (Hup2 Hup). eapply any_false in Hup2; eauto. }
  intros pwd3 H3. apply ensures_ret. by rewrite chars_join.
Qed.

(** C1, at a candidate of the word [cat]. The variation [c@7] has no
    uppercase letter, and whatever the random draws, [enhance_password]
    returns a string that has none either: the character it writes under
    the comment [Add uppercase] is a symbol. *)
Theorem enhance_password_adds_no_uppercase t :
  "c@7"%string ∈ generate_variations "cat"
  /\ exists out t', enhance_password "c@7" t = (Return out, t')
                    /\ any isupper (chars out) = false.
Proof.
  split; [compute_done|].
  destruct (enhance_password_post "c@7" ltac:(done) t)
    as (out & t' & Hrun & _ & _ & Hup).
  exists out, t'. split; [done|]. by apply Hup.
Qed.

(** On a candidate that is not empty [enhance_password] returns, whatever
    the random draws, a string with a digit and a symbol. *)
Theorem enhance_password_digit_and_symbol password :
  password <> ""%string ->
  ensures (enhance_password password) (fun out =>
    any isdigit (chars out) = true /\ any is_symbol (chars out) = true).
Proof.
  intros Hne. eapply ensures_weaken; [by apply enhance_password_post|].
  by intros out (? & ? & _).
Qed.

Lemma enhance_password_digit_and_symbol_witness :
  "cAT"%string <> ""%string
  /\ ensures (enhance_password "cAT") (fun out =>
       any isdigit (chars out) = true /\ any is_symbol (chars out) = true).
Proof.
  assert (Hne : "cAT"%string <> ""%string) by discriminate.
  split; [exact Hne|]. exact (enhance_password_digit_and_symbol "cAT" Hne).
Defined.

(** The empty candidate makes [random.randint(0, -1)] raise. *)
Theorem enhance_password_empty t :
  (enhance_password "" t).1 = Raise ValueError.
Proof. by destruct t. Qed.

End enhancement.

(* ===================================================================== *)
(** * The word partition of [main] *)
(* ===================================================================== *)

Section partition.

Lemma slice_take {A} (l : list A) (i c : Z) :
  0 <= i -> 0 <= c ->
  slice l i (i + c) = take (Z.to_nat c) (drop (Z.to_nat i) l).
Proof.
  intros Hi Hc. unfold slice, len.
  destruct (Z.le_gt_cases (i + c) (Z.of_nat (length l))) as [Hle|Hgt].
  - rewrite Z.min_l by done. f_equal. lia.
  - rewrite Z.min_r by lia. rewrite Nat2Z.id.
    rewrite !take_ge; [done| |]; rewrite length_drop; lia.
Qed.

Lemma concat_takes {A} (c m : nat) (l : list A) :
  (0 < c)%nat -> (length l <= m * c)%nat ->
  concat (map (fun k => take c (drop (k * c) l)) (seq 0 m)) = l.
Proof.
  intros Hc. revert l. induction m as [|m IH]; intros l Hl.
  - destruct l; [done | simpl in Hl; lia].
  - simpl seq. rewrite <- seq_shift. cbn [map concat]. rewrite List.map_map.
    transitivity (take c l ++ drop c l); [|apply take_drop].
    f_equal.
    etransitivity; [|apply (IH (drop c l)); rewrite length_drop; lia].
    f_equal. apply map_ext. intros k. by rewrite drop_drop.
Qed.

Lemma chunk_count (n stop : Z) :
  0 < n -> n <= stop ->
  let size := stop / n in
  let count := (stop + size - 1) / size in
  0 < size /\ stop <= count * size /\ n <= count
  /\ (count = n <-> stop mod n = 0).
Proof.
  intros Hn Hstop size count.
  assert (Hsize : 0 < size).
  { unfold size. apply Z.div_str_pos. lia. }
  pose proof (Z.div_mod stop n ltac:(lia)) as Hdm.
  pose proof (Z.mod_pos_bound stop n Hn) as Hm.
  pose proof (Z.div_mod (stop + size - 1) size ltac:(lia)) as Hdm'.
  pose proof (Z.mod_pos_bound (stop + size - 1) size Hsize) as Hm'.
  fold size in Hdm. fold count in Hdm'.
  split_and!; [done|nia|nia|].
  split; intros H; [nia|].
  assert (stop = n * size) by lia. nia.
Qed.

(** What the partition of [main] does achieve, for a positive worker
    count: if it returns, the chunks are contiguous pieces that make up the
    word list in order, so every word lies in exactly one chunk; there are
    at least [max_workers] of them, and exactly [max_workers] if and only if
    [max_workers] divides the number of words. *)
Theorem word_chunks_cover words n chunks :
  0 < n ->
  word_chunks words n = Return chunks ->
  concat chunks = words
  /\ n <= len chunks
  /\ (len chunks = n <-> len words mod n = 0).
Proof.
  intros Hn. unfold word_chunks, floordiv, range0.
  rewrite (proj2 (Z.eqb_neq n 0)) by lia. cbn [mbind outcome_bind mret outcome_ret].
  destruct (Z.eqb_spec (len words / n) 0) as [Hz|Hnz]; [done|].
  assert (Hlen : n <= len words).
  { destruct (Z.lt_ge_cases (len words) n) as [Hlt|]; [|done].
    rewrite Z.div_small in Hnz; [done|]. unfold len in *. lia. }
  destruct (chunk_count n (len words) Hn Hlen) as (Hsize & Hcover & Hcount & Hexact).
  rewrite (proj2 (Z.ltb_ge (len words / n) 0)) by lia.
  rewrite (proj2 (Z.leb_gt (len words) 0)) by lia.
  cbn [orb]. intros [= <-]. rewrite List.map_map.
  set (size := len words / n) in *.
  set (count := (len words + size - 1) / size) in *.
  split_and!.
  - etransitivity;
      [|apply (concat_takes (Z.to_nat size) (Z.to_nat count) words);
        [lia | unfold len in Hcover; nia]].
    f_equal. apply map_ext. intros k. rewrite slice_take by lia.
    do 2 f_equal. lia.
  - unfold len. rewrite length_map, length_seq. lia.
  - unfold len at 1. rewrite length_map, length_seq, Z2Nat.id by lia. done.
Qed.

(** With fewer words than workers the chunk size is 0 and [range]
    raises. *)
Theorem word_chunks_raises words n :
  0 < n -> len words < n -> word_chunks words n = Raise ValueError.
Proof.
  intros Hn Hlt. unfold word_chunks, floordiv, range0.
  rewrite (proj2 (Z.eqb_neq n 0)) by lia. cbn [mbind outcome_bind mret outcome_ret].
  rewrite Z.div_small by (unfold len in *; lia). done.
Qed.

(** [max_workers] is the number of processors less one, and at least 1. *)
Theorem max_workers_default cpu_count :
  1 <= cpu_count -> config.max_workers cpu_count = Z.max 1 (cpu_count - 1).
Proof. unfold config.max_workers. intros H. destruct (Z.eqb_spec (cpu_count - 1) 0); lia. Qed.

(** C3, at the fallback word list. With five processors [max_workers]
    is 4, and the six words are split into six chunks, not four; with eight
    processors it is 7, the chunk size is 0 and [range] raises, so that
    [main] starts nothing. *)
Theorem word_chunks_are_not_max_workers :
  config.max_workers 5 = 4
  /\ word_chunks fallback_words (config.max_workers 5)
     = Return [["cat"]; ["dog"]; ["sun"]; ["bird"]; ["password"]; ["hello"]]
  /\ config.max_workers 8 = 7
  /\ word_chunks fallback_words (config.max_workers 8) = Raise ValueError
  /\ main None fallback_words 8 = Raise ValueError.
Proof. by vm_compute. Qed.

Lemma word_chunks_cover_witness :
  0 < 4
  /\ word_chunks fallback_words 4
     = Return [["cat"]; ["dog"]; ["sun"]; ["bird"]; ["password"]; ["hello"]]
  /\ concat [["cat"]; ["dog"]; ["sun"]; ["bird"]; ["password"]; ["hello"]]
     = fallback_words
  /\ 4 <= len [["cat"]; ["dog"]; ["sun"]; ["bird"]; ["password"]; ["hello"]].
Proof.
  assert (Hrun : word_chunks fallback_words 4
                 = Return [["cat"]; ["dog"]; ["sun"]; ["bird"]; ["password"]; ["hello"]])
    by reflexivity.
  destruct (word_chunks_cover _ 4 _ ltac:(lia) Hrun) as (Hcat & Hmin & _).
  split; [lia|]. by split_and!.
Defined.

Lemma word_chunks_raises_witness :
  0 < 7 /\ len fallback_words < 7
  /\ word_chunks fallback_words 7 = Raise ValueError.
Proof.
  assert (Hlen : len fallback_words < 7) by (by vm_compute).
  split; [lia|]. split; [exact Hlen|].
  exact (word_chunks_raises fallback_words 7 ltac:(lia) Hlen).
Defined.

Lemma max_workers_default_witness :
  1 <= 1 /\ config.max_workers 1 = Z.max 1 (1 - 1).
Proof. split; [lia|]. exact (max_workers_default 1 ltac:(lia)). Defined.

End partition.

(* ===================================================================== *)
(** * [worker_process] *)
(* ===================================================================== *)

Section worker.

Implicit Types (w : worker) (tr pre post : list wevent) (ev : wevent).

Lemma pushed_snoc tr ev :
  pushed (tr ++ [ev]) = pushed tr ++ match ev with EvPut e => [e] | _ => [] end.
Proof. unfold pushed. rewrite omap_app. by destruct ev. Qed.

Lemma seen_at_put tr e : seen_at (tr ++ [EvPut e]) = {[e]} ∪ seen_at tr.
Proof.
  unfold seen_at. rewrite pushed_snoc, list_to_set_app_L.
  apply set_eq. intros x.
  rewrite !elem_of_union, !elem_of_list_to_set, list_elem_of_singleton,
    elem_of_singleton.
  tauto.
Qed.

Lemma seen_at_other tr ev :
  (forall e, ev <> EvPut e) -> seen_at (tr ++ [ev]) = seen_at tr.
Proof.
  intros Hev. unfold seen_at. rewrite pushed_snoc.
  destruct ev as [e|e k|e]; rewrite ?app_nil_r; [done|done|]. by destruct (Hev e).
Qed.

(** Where a trail that grew by one event can be cut. *)
Lemma snoc_cut tr ev pre x post :
  tr ++ [ev] = pre ++ x :: post ->
  (post = [] /\ pre = tr /\ x = ev)
  \/ exists post0, post = post0 ++ [ev] /\ tr = pre ++ x :: post0.
Proof.
  destruct post as [|p post _] using rev_ind; intros Heq.
  - left. apply app_inj_tail in Heq as [-> ->]. done.
  - right. exists post.
    rewrite app_comm_cons, app_assoc in Heq.
    apply app_inj_tail in Heq as [Htr Hev]. by subst.
Qed.

Lemma event_ok_later pre x post0 ev :
  event_ok pre x post0 ->
  (post0 = [] -> forall e, x = EvExists e true -> forall e', ev <> EvPut e') ->
  event_ok pre x (post0 ++ [ev]).
Proof.
  destruct x as [e|e known|e]; simpl; try done.
  intros [Hseen Hnext] Hlast. split; [done|].
  intros -> e' post' Heq. destruct post0 as [|p post0]; simpl in Heq.
  - injection Heq as -> <-. by eapply Hlast.
  - injection Heq as -> <-. by eapply Hnext.
Qed.

Lemma worker_inv_start chunk : worker_inv (start_worker chunk).
Proof.
  split_and!; simpl.
  - split; [done|]. intros pre ev post Heq. by destruct pre.
  - constructor.
  - done.
Qed.

(** A worker never changes the event or the database, and what it adds to
    the queue goes to its end. *)
Lemma worker_step_frame t fault sh w sh' w' :
  worker_step t fault sh w = Some (sh', w') ->
  stop_event sh' = stop_event sh /\ db sh' = db sh
  /\ exists new, output_queue sh' = output_queue sh ++ new.
Proof.
  unfold worker_step. intros H.
  repeat case_match; simplify_eq; simpl;
    split_and!; try done; try (by exists []; rewrite app_nil_r); eauto.
Qed.

Lemma trail_snoc tr ev :
  (forall pre x post, tr = pre ++ x :: post -> event_ok pre x post) ->
  event_ok tr ev [] ->
  (forall e, ev = EvPut e -> exists pre, tr = pre ++ [EvExists e false]) ->
  forall pre x post, tr ++ [ev] = pre ++ x :: post -> event_ok pre x post.
Proof.
  intros Hok Hev Hput pre x post [(-> & -> & ->)|(post0 & -> & ->)]%snoc_cut.
  - done.
  - apply event_ok_later; [by eapply Hok|].
    intros -> e -> e' ->. destruct (Hput e' eq_refl) as [pre' Heq].
    by apply app_inj_tail in Heq as [_ ?].
Qed.

(** A move that records nothing. *)
Lemma worker_inv_at w chunk pc :
  worker_inv w ->
  (forall e vars words, pc <> WPut e vars words) ->
  worker_inv (Worker chunk (bloom_filter w) pc (trail w)).
Proof.
  intros (Hf & Hnd & _) Hpc. split_and!; [done|done|].
  intros e vars words Heq. by destruct (Hpc e vars words).
Qed.

(** A move that records a membership test or a query. *)
Lemma worker_inv_did w ev pc :
  worker_inv w ->
  event_ok (trail w) ev [] ->
  (forall e, ev <> EvPut e) ->
  (forall e vars words, pc = WPut e vars words -> ev = EvExists e false) ->
  worker_inv (worker_did w ev pc).
Proof.
  intros ((Hbloom & Hok) & Hnd & _) Hev Hnoput Hpc.
  split_and!; unfold filtered, worker_did; cbn [trail bloom_filter wpc].
  - split; [by rewrite seen_at_other|].
    apply trail_snoc; [done|done|]. intros e ->. by destruct (Hnoput e).
  - rewrite pushed_snoc. destruct ev as [e|e k|e]; rewrite ?app_nil_r; try done.
    by destruct (Hnoput e).
  - intros e vars words Heq. exists (trail w). by rewrite (Hpc _ _ _ Heq).
Qed.

(** The push. *)
Lemma worker_inv_put w e vars words chunk pc :
  worker_inv w ->
  wpc w = WPut e vars words ->
  (forall e' vars' words', pc <> WPut e' vars' words') ->
  worker_inv (Worker chunk ({[e]} ∪ bloom_filter w) pc (trail w ++ [EvPut e])).
Proof.
  intros ((Hbloom & Hok) & Hnd & Hput) Hpc Hpc'.
  destruct (Hput _ _ _ Hpc) as [pre Hpre].
  assert (Hfresh : e ∉ seen_at (trail w)).
  { rewrite Hpre, seen_at_other by done.
    by destruct (Hok pre (EvExists e false) [] Hpre) as [? _]. }
  split_and!; unfold filtered; cbn [trail bloom_filter wpc].
  - split; [by rewrite seen_at_put, Hbloom|].
    apply trail_snoc; [done| |].
    + split; [done|]. by exists pre.
    + intros e' [= <-]. by exists pre.
  - rewrite pushed_snoc. apply NoDup_app. split_and!; [done| |apply NoDup_singleton].
    intros x Hx ->%list_elem_of_singleton. apply Hfresh.
    unfold seen_at. by apply elem_of_list_to_set.
  - intros e' vars' words' Heq. by destruct (Hpc' e' vars' words').
Qed.

Lemma worker_step_inv t fault sh w sh' w' :
  worker_step t fault sh w = Some (sh', w') -> worker_inv w -> worker_inv w'.
Proof.
  unfold worker_step. intros H Hinv.
  pose proof (proj1 (proj1 Hinv)) as Hbloom.
  repeat case_match; simplify_eq.
  all: try (apply worker_inv_at; done).
  all: repeat match goal with
         | Hb : bool_decide _ = true |- _ => apply bool_decide_eq_true in Hb
         | Hb : bool_decide _ = false |- _ => apply bool_decide_eq_false in Hb
         end.
  - apply worker_inv_did; try done. cbn [event_ok]. by rewrite <- Hbloom.
  - apply worker_inv_did; try done. cbn [event_ok]. by rewrite <- Hbloom.
  - apply worker_inv_did; try done.
    + cbn [event_ok]. by rewrite <- Hbloom.
    + by intros e vars words' [= <- _ _].
  - eapply worker_inv_put; done.
Qed.

(** A process that has exited does not move. *)
Lemma worker_step_alive t fault sh w sh' w' :
  worker_step t fault sh w = Some (sh', w') -> is_alive w = true.
Proof. unfold worker_step, is_alive. by repeat case_match. Qed.






End worker.

(* ===================================================================== *)
(** * [writer_process] *)
(* ===================================================================== *)

Section writer.

Implicit Types (r : writer) (now : nat -> Z) (fault : option exn).

Lemma committed_of_snoc fl (b : list string) (ok : bool) :
  committed_of (fl ++ [(b, ok)]) = committed_of fl ++ (if ok then b else []).
Proof.
  unfold committed_of. rewrite omap_app, concat_app.
  destruct ok; simpl; by rewrite ?app_nil_r.
Qed.

Lemma writer_inv_start sh : writer_inv sh start_writer.
Proof. by split_and!. Qed.

(** The writer never changes the event, only takes from the front of the
    queue, and only adds rows. *)
Lemma writer_step_frame now fault sh r sh' r' :
  writer_step now fault sh r = Some (sh', r') ->
  stop_event sh' = stop_event sh
  /\ (exists taken, output_queue sh = taken ++ output_queue sh')
  /\ exists added, db sh' = db sh ++ added.
Proof.
  unfold writer_step. intros H.
  repeat case_match; simplify_eq; simpl; split_and!; try done;
    try (by exists []); try (by exists []; rewrite app_nil_r);
    try (by eexists [_]).
  all: match goal with
       | Hins : insert_batch _ _ _ = Return _ |- _ =>
           rewrite insert_batch_returns in Hins; injection Hins as <-; eauto
       end.
Qed.

(** The invariant does not depend on what the other processes do: they
    may set the event and add rows. *)
Lemma writer_inv_env sh sh' r :
  writer_inv sh r ->
  (stop_event sh = true -> stop_event sh' = true) ->
  (exists added, db sh' = db sh ++ added) ->
  writer_inv sh' r.
Proof.
  intros (Hdeq & Hdb & Hpc) Hstop [added Hadd]. split_and!; [done| |].
  - eapply Forall_impl; [exact Hdb|]. intros pwd Hin. simpl in Hin.
    rewrite Hadd. unfold keys. rewrite map_app. apply elem_of_app. by left.
  - destruct (rpc r); try done; try (by apply Hstop).
    destruct Hpc as [? ?]. split; [by apply Hstop | done].
Qed.

Lemma writer_step_inv now fault sh r sh' r' :
  writer_step now fault sh r = Some (sh', r') ->
  writer_inv sh r -> writer_inv sh' r'.
Proof.
  unfold writer_step. intros H (Hdeq & Hdb & Hpc).
  unfold unflushed, committed in Hdeq, Hdb.
  repeat case_match; simplify_eq;
    unfold writer_inv, unflushed, committed, writer_at, flush_failed;
    cbn [rpc batch dequeued flushes log stop_event db with_db];
    rewrite ?committed_of_snoc, ?app_nil_r.
  all: rewrite ?app_nil_r in *; split_and!; try done.
  all: try (by rewrite Hdeq, <- app_assoc).
  all: try apply last_snoc.
  all: try congruence.
  all: match goal with
       | Hins : insert_batch _ _ _ = Return _ |- _ =>
           destruct (insert_batch_keys _ _ _ _ Hins) as (Hin & Hkeep & _)
       end.
  all: apply Forall_app; split;
    [eapply Forall_impl; [exact Hdb|]; auto | apply Forall_forall; auto].
Qed.



(** A writer that has exited does not move. *)
Lemma writer_step_alive now fault sh r sh' r' :
  writer_step now fault sh r = Some (sh', r') -> writer_is_alive r = true.
Proof. unfold writer_step, writer_is_alive. by repeat case_match. Qed.

End writer.

(* ===================================================================== *)
(** * The system *)
(* ===================================================================== *)

Section system.

Implicit Types (s : system) (a : action) (schedule : list action).

(** Closes a goal [exists added, t = t ++ added]. *)
Ltac nothing_added := exists []; by rewrite app_nil_r.

Lemma active_le_len ws : active ws <= len ws.
Proof.
  unfold active, len.
  pose proof (length_filter (fun w => is_alive w = true) ws). lia.
Qed.

(** Replacing a live process by its next state does not raise the count. *)
Lemma active_insert ws i w w' :
  ws !! i = Some w -> is_alive w = true -> active (<[i := w']> ws) <= active ws.
Proof.
  unfold active, len. revert i. induction ws as [|x ws IH]; intros [|i] Hi Hw; try done.
  - simpl in Hi. injection Hi as ->. simpl. rewrite !filter_cons.
    rewrite (decide_True (P := is_alive w = true)) by done.
    destruct (decide (is_alive w' = true)); simpl; lia.
  - simpl in Hi. specialize (IH i Hi Hw). simpl. rewrite !filter_cons.
    destruct (decide (is_alive x = true)); simpl; lia.
Qed.

Lemma never_up_snoc counts c :
  never_up counts -> Forall (fun c' => c <= c') counts -> never_up (counts ++ [c]).
Proof.
  induction counts as [|c0 counts IH]; simpl; intros Hup Hall.
  - split; [constructor | done].
  - destruct Hup as [Hle Hup]. apply Forall_cons in Hall as [Hc0 Hall]. split.
    + apply Forall_app. split; [done|]. by constructor.
    + by apply IH.
Qed.

Lemma monitor_step_inv s s' :
  monitor_step s = Some s' -> monitor_inv s -> monitor_inv s'.
Proof.
  unfold monitor_step, monitor_inv. intros H [Hall Hup].
  repeat case_match; simplify_eq; simpl; try done.
  rewrite map_app. simpl. split.
  - apply Forall_app. split; [done|]. constructor; [|constructor].
    simpl. pose proof (active_le_len (workers s)). lia.
  - apply never_up_snoc; [done|]. apply Forall_map.
    eapply Forall_impl; [exact Hall|]. simpl. intros; lia.
Qed.

(** What a monitor step leaves alone. *)
Lemma monitor_step_frame s s' :
  monitor_step s = Some s' -> sh s' = sh s /\ workers s' = workers s /\ wr s' = wr s.
Proof. unfold monitor_step. intros H. by repeat case_match; simplify_eq. Qed.

Lemma step_inv a s : system_inv s -> system_inv (step a s).
Proof.
  intros (Hws & Hwr & Hmon). destruct a as [i t fault|now fault| |]; simpl.
  - destruct (workers s !! i) as [w|] eqn:Hi; [|done].
    destruct (worker_step t fault (sh s) w) as [[sh' w']|] eqn:Hstep; [|done].
    destruct (worker_step_frame _ _ _ _ _ _ Hstep) as (Hstop & Hdb & _).
    split_and!; simpl.
    + apply Forall_insert; [done|]. eapply worker_step_inv; [done|].
      rewrite Forall_forall in Hws. apply Hws. by eapply list_elem_of_lookup_2.
    + eapply writer_inv_env; [done|by rewrite Hstop|].
      exists []. by rewrite Hdb, app_nil_r.
    + destruct Hmon as [Hall Hup]. split; simpl; [|done].
      eapply Forall_impl; [exact Hall|]. simpl. intros r [Hlo Hhi].
      unfold len in *. rewrite length_insert. split; [|done].
      pose proof (active_insert _ _ _ w' Hi (worker_step_alive _ _ _ _ _ _ Hstep)).
      lia.
  - destruct (writer_step now fault (sh s) (wr s)) as [[sh' r']|] eqn:Hstep; [|done].
    split_and!; simpl; [done| |done]. by eapply writer_step_inv.
  - destruct (monitor_step s) as [s'|] eqn:Hstep; simpl; [|done].
    destruct (monitor_step_frame _ _ Hstep) as (Hsh & Hw & Hr).
    split_and!; [by rewrite Hw | by rewrite Hsh, Hr | by eapply monitor_step_inv].
  - split_and!; simpl; [done| |done].
    eapply writer_inv_env; [done|done|]. exists []. by rewrite app_nil_r.
Qed.

Lemma run_snoc schedule a s : run (schedule ++ [a]) s = step a (run schedule s).
Proof. unfold run. by rewrite foldl_snoc. Qed.

Lemma run_inv schedule s : system_inv s -> system_inv (run schedule s).
Proof.
  intros Hinv. induction schedule as [|a schedule IH] using rev_ind; [done|].
  rewrite run_snoc. by apply step_inv.
Qed.

Lemma main_inv file words cpu_count s0 :
  main file words cpu_count = Return s0 -> system_inv s0.
Proof.
  unfold main. destruct (word_chunks _ _) as [chunks|e]; [|done].
  intros [= <-]. split_and!; simpl.
  - apply Forall_map, Forall_true. intros chunk. apply worker_inv_start.
  - apply writer_inv_start.
  - split; simpl; [constructor | done].
Qed.

(** Every state a run of the program reaches satisfies the invariants. *)
Lemma reachable_inv file words cpu_count s0 schedule :
  main file words cpu_count = Return s0 -> system_inv (run schedule s0).
Proof. intros Hmain. apply run_inv. by eapply main_inv. Qed.

Lemma demo_main : main None fallback_words 3 = Return demo_system.
Proof. reflexivity. Qed.

Example demo_run :
  let s := run demo_schedule demo_system in
  map wpc (workers s) = [WReturned; WWhile]
  /\ map trail (workers s)
     = [[EvExists "!09" false; EvPut "!09"; EvExists "d!0G" false; EvPut "d!0G"];
        []]
  /\ dequeued (wr s) = ["!09"] /\ flushes (wr s) = [(["!09"], true)]
  /\ rpc (wr s) = RReturned
  /\ sh s = Shared ["d!0G"] true [Row "!09" 1700000000].
Proof. by vm_compute. Qed.

Lemma follow_snoc history o s :
  follow (history ++ [o]) s = follow history s ≫= occur o.
Proof. unfold follow. by rewrite foldl_app. Qed.

(** A run that is followed to its end is a run of its actions. *)
Lemma follow_run history s0 s :
  follow history s0 = Some s -> s = run (actions history) s0.
Proof.
  revert s. induction history as [|o history IH] using rev_ind; intros s.
  { by intros [= <-]. }
  rewrite follow_snoc. destruct (follow history s0) as [s1|]; [|done].
  unfold actions. rewrite omap_app. fold (actions history).
  destruct o as [a|p]; simpl.
  - intros [= <-]. rewrite run_snoc. by rewrite <- (IH s1).
  - destruct (at_manager_call p s1); [done|]. intros [= <-].
    rewrite app_nil_r. by apply IH.
Qed.

Lemma follow_actions schedule s : follow (map Does schedule) s = Some (run schedule s).
Proof.
  induction schedule as [|a schedule IH] using rev_ind; [done|].
  rewrite map_app. cbn [map]. by rewrite follow_snoc, IH, run_snoc.
Qed.

(** A signal that finds the writer waiting in [get] ends what the model
    follows. *)
Example signal_in_get_not_followed :
  follow (map Does demo_start ++ [SignalInCall PWriter]) demo_system = None.
Proof. by vm_compute. Qed.

Lemma checked_at_snoc s0 schedule a i e j :
  checked_at s0 schedule i e j -> checked_at s0 (schedule ++ [a]) i e j.
Proof.
  intros (t & variation & vars & words & wj & Hj & Hw & Hpc & He & Hset & Hdb).
  assert (Hlt : (j < length schedule)%nat) by (by eapply lookup_lt_Some).
  exists t, variation, vars, words, wj.
  rewrite lookup_app_l by done. rewrite take_app_le by lia. done.
Qed.

(** The candidate of line 124 goes through the two tests. *)
Lemma worker_step_filters t fault sh w variation vars words enhanced t' :
  wpc w = WVars (variation :: vars) words ->
  enhance_password variation t = (Return enhanced, t') ->
  exists sh' w',
    worker_step t fault sh w = Some (sh', w')
    /\ filtered_step fault sh w enhanced vars words sh' w'.
Proof.
  intros Hpc Hrun. unfold worker_step, filtered_step. rewrite Hpc, Hrun.
  destruct (bool_decide (enhanced ∈ bloom_filter w)).
  { do 2 eexists. by split. }
  destruct fault as [e|].
  { do 2 eexists. by split. }
  destruct (db_exists enhanced (db sh));
    do 2 eexists; by split.
Qed.

Lemma worker_step_pushes t fault sh w sh' w' :
  worker_step t fault sh w = Some (sh', w') -> pushes_at_put_only sh w sh' w'.
Proof.
  unfold worker_step, pushes_at_put_only. intros H.
  repeat case_match; simplify_eq; simpl; rewrite ?pushed_snoc, ?app_nil_r;
    try (by left).
  right. eauto 10.
Qed.

(** A worker comes to the push only from the tests, with the candidate
    absent from its set and from the store. *)
Lemma worker_step_to_put t fault sh w sh' w' e vars words :
  worker_step t fault sh w = Some (sh', w') ->
  wpc w' = WPut e vars words ->
  fault = None
  /\ exists variation,
       wpc w = WVars (variation :: vars) words
       /\ (enhance_password variation t).1 = Return e
       /\ (e ∉ bloom_filter w)
       /\ db_exists e (db sh) = false.
Proof.
  unfold worker_step. intros H Hpc.
  repeat case_match; simplify_eq; simpl in *; simplify_eq.
  split; [done|]. eexists. split; [done|].
  match goal with Hrun : enhance_password _ _ = _ |- _ => rewrite Hrun end.
  split_and!; [done| |done].
  match goal with Hin : bool_decide _ = false |- _ =>
    by apply bool_decide_eq_false in Hin end.
Qed.

Lemma checks_before_push_start s0 chunk i :
  checks_before_push s0 [] i (start_worker chunk).
Proof. split; [intros e Hin; by apply elem_of_nil in Hin | done]. Qed.

Lemma checks_before_push_snoc s0 schedule a i w :
  checks_before_push s0 schedule i w ->
  checks_before_push s0 (schedule ++ [a]) i w.
Proof.
  intros [Hpushed Hput]. split.
  - intros e He. destruct (Hpushed e He) as [j Hj]. exists j.
    by apply checked_at_snoc.
  - intros e vars words Hpc. destruct (Hput e vars words Hpc) as [Hset [j Hj]].
    split; [done|]. exists j. by apply checked_at_snoc.
Qed.

Lemma checks_before_push_run file words cpu_count s0 schedule i w :
  main file words cpu_count = Return s0 ->
  workers (run schedule s0) !! i = Some w ->
  checks_before_push s0 schedule i w.
Proof.
  intros Hmain. revert i w.
  induction schedule as [|a schedule IH] using rev_ind; intros i w Hw.
  { unfold main in Hmain. destruct (word_chunks _ _) as [chunks|]; [|done].
    injection Hmain as <-. simpl in Hw.
    apply list_lookup_fmap_Some in Hw as (chunk & -> & _).
    apply checks_before_push_start. }
  rewrite run_snoc in Hw.
  destruct a as [i0 t fault|now fault| |]; simpl in Hw.
  - destruct (workers (run schedule s0) !! i0) as [w0|] eqn:Hi0;
      [|by apply checks_before_push_snoc, IH].
    destruct (worker_step t fault (sh (run schedule s0)) w0) as [[sh' w0']|] eqn:Hstep;
      [|by apply checks_before_push_snoc, IH].
    simpl in Hw. destruct (decide (i = i0)) as [->|Hne].
    2:{ rewrite list_lookup_insert_ne in Hw by done.
        by apply checks_before_push_snoc, IH. }
    rewrite list_lookup_insert_eq in Hw by (by eapply lookup_lt_Some).
    injection Hw as <-.
    destruct (checks_before_push_snoc _ _ (ActWorker i0 t fault) _ _ (IH _ _ Hi0))
      as [Hpushed Hput].
    assert (Hnew : forall e vars words, wpc w0' = WPut e vars words ->
              (e ∉ bloom_filter w0')
              /\ exists j, checked_at s0 (schedule ++ [ActWorker i0 t fault]) i0 e j).
    { intros e vars1 words1 Hpc.
      destruct (worker_step_to_put _ _ _ _ _ _ _ _ _ Hstep Hpc)
        as (-> & variation & Hpc0 & Hrun & Hset & Hdb).
      destruct (worker_step_pushes _ _ _ _ _ _ Hstep)
        as [(_ & Hbloom & _)|(e' & vars' & words' & Hpc' & _)]; [|congruence].
      split; [by rewrite Hbloom|]. exists (length schedule).
      exists t, variation, vars1, words1, w0.
      rewrite list_lookup_middle by done.
      rewrite take_app_length. done. }
    split; [|exact Hnew].
    intros e He.
    destruct (worker_step_pushes _ _ _ _ _ _ Hstep)
      as [(_ & _ & Hsame)|(e' & vars' & words' & Hpc' & _ & _ & Hmore)].
    + rewrite Hsame in He. by apply Hpushed.
    + rewrite Hmore in He. apply elem_of_app in He as [He|He]; [by apply Hpushed|].
      apply list_elem_of_singleton in He as ->.
      by destruct (Hput _ _ _ Hpc') as [_ ?].
  - apply checks_before_push_snoc, IH.
    by destruct (writer_step now fault _ _) as [[sh' r']|].
  - apply checks_before_push_snoc, IH.
    destruct (monitor_step (run schedule s0)) as [s'|] eqn:Hstep; simpl in Hw; [|done].
    by destruct (monitor_step_frame _ _ Hstep) as (_ & <- & _).
  - by apply checks_before_push_snoc, IH.
Qed.

(** C6. A candidate a worker produces goes through the two tests of lines
    127-128: one in the set is skipped without asking the store; any other
    is looked up in the store, and the worker goes to the push exactly if the
    store, as it is at that moment, does not hold it. A worker changes the
    queue and its set only at the push, where the candidate it stood with is
    appended to the queue and then added to the set. And in every state a
    run of the program reaches, the record of each worker is [filtered], and
    each candidate it has pushed or is about to push it has checked at an
    earlier moment of the run, when the candidate was neither in its set nor
    in the database. *)
Theorem worker_filters_before_push file words cpu_count s0 schedule :
  main file words cpu_count = Return s0 ->
  (forall t fault sh w variation vars words enhanced t',
      wpc w = WVars (variation :: vars) words ->
      enhance_password variation t = (Return enhanced, t') ->
      exists sh' w',
        worker_step t fault sh w = Some (sh', w')
        /\ filtered_step fault sh w enhanced vars words sh' w')
  /\ (forall t fault sh w sh' w',
        worker_step t fault sh w = Some (sh', w') ->
        pushes_at_put_only sh w sh' w')
  /\ (forall i w,
        workers (run schedule s0) !! i = Some w ->
        filtered w /\ checks_before_push s0 schedule i w).
Proof.
  intros Hmain. split_and!.
  - intros. by eapply worker_step_filters.
  - intros. by eapply worker_step_pushes.
  - intros i w Hw. split; [|by eapply checks_before_push_run].
    destruct (reachable_inv _ _ _ _ schedule Hmain) as (Hws & _).
    rewrite Forall_forall in Hws.
    by destruct (Hws w (list_elem_of_lookup_2 _ _ _ Hw)) as [? _].
Qed.

Lemma worker_filters_before_push_witness :
  main None fallback_words 3 = Return demo_system
  /\ pushed (trail (Worker ["dog"; "sun"; "cat"] {[ "!09"%string; "d!0G"%string ]}
                      WReturned
                      [EvExists "!09" false; EvPut "!09";
                       EvExists "d!0G" false; EvPut "d!0G"]))
     = ["!09"; "d!0G"]%string
  /\ workers (run demo_schedule demo_system) !! 0%nat
     = Some (Worker ["dog"; "sun"; "cat"] {[ "!09"%string; "d!0G"%string ]}
                    WReturned
                    [EvExists "!09" false; EvPut "!09";
                     EvExists "d!0G" false; EvPut "d!0G"])
  /\ exists j, checked_at demo_system demo_schedule 0 "d!0G" j.
Proof.
  split; [exact demo_main|]. split; [reflexivity|].
  assert (Hw : workers (run demo_schedule demo_system) !! 0%nat
               = Some (Worker ["dog"; "sun"; "cat"] {[ "!09"%string; "d!0G"%string ]}
                              WReturned
                              [EvExists "!09" false; EvPut "!09";
                               EvExists "d!0G" false; EvPut "d!0G"])).
  { vm_compute. reflexivity. }
  split; [exact Hw|].
  destruct (worker_filters_before_push None fallback_words 3 demo_system
              demo_schedule demo_main) as (_ & _ & Hrun).
  destruct (Hrun _ _ Hw) as (_ & Hpushed & _).
  apply Hpushed. right. left.
Defined.

(** C10. In every state a run of the program reaches, no worker has
    pushed the same string twice, and its [bloom_filter] is the set of the
    strings it has pushed. *)
Theorem worker_pushes_each_candidate_once file words cpu_count s0 schedule :
  main file words cpu_count = Return s0 ->
  Forall (fun w => NoDup (pushed (trail w))
                   /\ bloom_filter w = list_to_set (pushed (trail w)))
         (workers (run schedule s0)).
Proof.
  intros Hmain. destruct (reachable_inv _ _ _ _ schedule Hmain) as (Hws & _).
  eapply Forall_impl; [exact Hws|]. by intros w ([? _] & ? & _).
Qed.

Lemma worker_pushes_each_candidate_once_witness :
  main None fallback_words 3 = Return demo_system
  /\ Forall (fun w => NoDup (pushed (trail w))
                      /\ bloom_filter w = list_to_set (pushed (trail w)))
            (workers (run demo_schedule demo_system)).
Proof.
  split; [exact demo_main|].
  exact (worker_pushes_each_candidate_once None fallback_words 3 demo_system
           demo_schedule demo_main).
Defined.

(** Once the writer has exited, nothing changes it or the database. *)
Lemma dead_writer_run s schedule :
  writer_is_alive (wr s) = false ->
  wr (run schedule s) = wr s /\ db (sh (run schedule s)) = db (sh s).
Proof.
  intros Hdead. induction schedule as [|a schedule [IHw IHdb]] using rev_ind; [done|].
  rewrite run_snoc. set (s1 := run schedule s) in *. clearbody s1.
  destruct a as [i t fault|now fault| |]; simpl.
  - destruct (workers s1 !! i) as [w|]; [|done].
    destruct (worker_step t fault (sh s1) w) as [[sh' w']|] eqn:Hstep; [|done].
    destruct (worker_step_frame _ _ _ _ _ _ Hstep) as (_ & Hdb & _).
    simpl. by rewrite Hdb.
  - destruct (writer_step now fault (sh s1) (wr s1)) as [[sh' r']|] eqn:Hstep; [|done].
    apply writer_step_alive in Hstep. congruence.
  - destruct (monitor_step s1) as [s'|] eqn:Hstep; simpl; [|done].
    destruct (monitor_step_frame _ _ Hstep) as (Hsh & _ & Hwr).
    by rewrite Hsh, Hwr.
  - done.
Qed.

(** C5, at a run in which [insert_batch] raises in the final flush. The
    writer has taken the candidate ["!09"] from the queue and holds it in its
    batch when the signal arrives; it leaves its loop, and the call of line
    156 raises. Line 156 is outside the [try] block: the writer ends with
    the exception, nothing is logged, no batch was stored, and whatever the
    other processes do from then on, the writer stays dead and the candidate
    is not in the database. *)
Theorem final_flush_failure_drops_batch :
  let s := run failing_flush_schedule demo_system in
  main None fallback_words 3 = Return demo_system
  /\ dequeued (wr s) = ["!09"]%string
  /\ batch (wr s) = ["!09"]%string
  /\ rpc (wr s) = RRaised OperationalError
  /\ flushes (wr s) = [(["!09"]%string, false)]
  /\ log (wr s) = []
  /\ forall schedule,
       rpc (wr (run schedule s)) = RRaised OperationalError
       /\ committed (wr (run schedule s)) = []
       /\ db_exists "!09" (db (sh (run schedule s))) = false.
Proof.
  intros s. split; [exact demo_main|].
  do 5 (split; [by vm_compute|]).
  intros schedule.
  destruct (dead_writer_run s schedule) as [-> ->]; [by vm_compute|].
  by vm_compute.
Qed.




(** C9. Rows are only added: [insert_batch] returns the table it was
    given followed by new rows; a step of a worker, the [exists] query
    included, leaves the table as it is; and whatever the processes do, the
    table of a later state is the table of the earlier state followed by new
    rows, so that every row keeps its place, its key and its [created]
    time. *)
Theorem rows_are_only_added :
  (forall now passwords t,
     exists added, insert_batch now passwords t = Return (t ++ added))
  /\ (forall t fault sh w,
        match worker_step t fault sh w with
        | Some (sh', _) => db sh' = db sh
        | None => True
        end)
  /\ (forall schedule s,
        exists added, db (sh (run schedule s)) = db (sh s) ++ added).
Proof.
  split_and!.
  - intros now passwords t. rewrite insert_batch_returns. eauto.
  - intros t fault sh w.
    destruct (worker_step t fault sh w) as [[sh' w']|] eqn:Hstep; [|done].
    by destruct (worker_step_frame _ _ _ _ _ _ Hstep) as (_ & ? & _).
  - intros schedule s. induction schedule as [|a schedule IH] using rev_ind.
    + nothing_added.
    + rewrite run_snoc. destruct IH as [added IH].
      set (s1 := run schedule s) in *. clearbody s1.
      assert (Hstep : exists more, db (sh (step a s1)) = db (sh s1) ++ more).
      { destruct a as [i t fault|now fault| |]; simpl.
        - destruct (workers s1 !! i) as [w|]; [|nothing_added].
          destruct (worker_step t fault (sh s1) w) as [[sh' w']|] eqn:Hstep;
            [|nothing_added].
          destruct (worker_step_frame _ _ _ _ _ _ Hstep) as (_ & Hdb & _).
          simpl. rewrite Hdb. nothing_added.
        - destruct (writer_step now fault (sh s1) (wr s1)) as [[sh' r']|] eqn:Hstep;
            [|nothing_added].
          by destruct (writer_step_frame _ _ _ _ _ _ Hstep) as (_ & _ & ?).
        - destruct (monitor_step s1) as [s'|] eqn:Hstep; simpl; [|nothing_added].
          destruct (monitor_step_frame _ _ Hstep) as (Hsh & _ & _).
          rewrite Hsh. nothing_added.
        - nothing_added. }
      destruct Hstep as [more ->]. rewrite IH, <- app_assoc. eauto.
Qed.

(** C4, at the fallback word list with five processors: [max_workers] is
    4, six workers are started, and the first line the monitor loop logs
    reports six active workers. *)
Theorem monitor_reports_above_max_workers :
  exists s0,
    main None fallback_words 5 = Return s0
    /\ config.max_workers 5 = 4
    /\ len (workers s0) = 6
    /\ reports (mon (run [ActMonitor; ActMonitor] s0)) = [Report 0 6].
Proof. eexists. by vm_compute. Qed.

Lemma run_workers_length schedule s :
  length (workers (run schedule s)) = length (workers s).
Proof.
  induction schedule as [|a schedule IH] using rev_ind; [done|].
  rewrite run_snoc, <- IH. set (s1 := run schedule s). clearbody s1.
  destruct a as [i t fault|now fault| |]; simpl; try done.
  - destruct (workers s1 !! i) as [w|]; [|done].
    destruct (worker_step t fault (sh s1) w) as [[sh' w']|]; [|done].
    simpl. by rewrite length_insert.
  - by destruct (writer_step now fault (sh s1) (wr s1)) as [[sh' r']|].
  - destruct (monitor_step s1) as [s'|] eqn:Hstep; simpl; [|done].
    by destruct (monitor_step_frame _ _ Hstep) as (_ & -> & _).
Qed.

(** What the monitor loop does report: never more than the number of
    workers [main] started, and never more than it reported before, whether
    the event is set or not. *)
Theorem monitor_reports_never_up file words cpu_count s0 schedule :
  main file words cpu_count = Return s0 ->
  let s := run schedule s0 in
  Forall (fun r => workers_active r <= len (workers s0)) (reports (mon s))
  /\ never_up (map workers_active (reports (mon s))).
Proof.
  intros Hmain s.
  destruct (reachable_inv _ _ _ _ schedule Hmain) as (_ & _ & Hall & Hup).
  fold s in Hall, Hup. split; [|done].
  eapply Forall_impl; [exact Hall|]. intros r [_ Hhi]. simpl in Hhi.
  unfold len in *. unfold s in Hhi. by rewrite run_workers_length in Hhi.
Qed.

Lemma monitor_reports_never_up_witness :
  main None fallback_words 3 = Return demo_system
  /\ reports (mon (run demo_schedule demo_system)) = [Report 0 2]
  /\ Forall (fun r => workers_active r <= len (workers demo_system))
            (reports (mon (run demo_schedule demo_system)))
  /\ never_up (map workers_active (reports (mon (run demo_schedule demo_system)))).
Proof.
  split; [exact demo_main|]. split; [vm_compute; reflexivity|].
  exact (monitor_reports_never_up None fallback_words 3 demo_system
           demo_schedule demo_main).
Defined.

(** The event is one-way: once set it stays set, whatever happens. *)
Theorem stop_event_stays_set schedule s :
  stop_event (sh s) = true -> stop_event (sh (run schedule s)) = true.
Proof.
  intros Hset. induction schedule as [|a schedule IH] using rev_ind; [done|].
  rewrite run_snoc. set (s1 := run schedule s) in *. clearbody s1.
  destruct a as [i t fault|now fault| |]; simpl; try done.
  - destruct (workers s1 !! i) as [w|]; [|done].
    destruct (worker_step t fault (sh s1) w) as [[sh' w']|] eqn:Hstep; [|done].
    destruct (worker_step_frame _ _ _ _ _ _ Hstep) as (Hstop & _). simpl. congruence.
  - destruct (writer_step now fault (sh s1) (wr s1)) as [[sh' r']|] eqn:Hstep; [|done].
    destruct (writer_step_frame _ _ _ _ _ _ Hstep) as (Hstop & _). simpl. congruence.
  - destruct (monitor_step s1) as [s'|] eqn:Hstep; simpl; [|done].
    destruct (monitor_step_frame _ _ Hstep) as (Hsh & _). by rewrite Hsh.
Qed.

Lemma stop_event_stays_set_witness :
  stop_event (sh (run [ActSignal] demo_system)) = true
  /\ stop_event (sh (run demo_schedule (run [ActSignal] demo_system))) = true.
Proof.
  assert (Hset : stop_event (sh (run [ActSignal] demo_system)) = true)
    by reflexivity.
  split; [exact Hset|]. exact (stop_event_stays_set demo_schedule _ Hset).
Defined.

End system.

(* ===================================================================== *)
(** * [load_dictionary] *)
(* ===================================================================== *)

Section dictionary.

Implicit Types (l : list ascii) (c : ascii).

Lemma lower_not_upper c : isupper (lower c) = false.
Proof. by destruct c as [[] [] [] [] [] [] [] []]. Qed.

Lemma lower_isspace c : isspace (lower c) = isspace c.
Proof. by destruct c as [[] [] [] [] [] [] [] []]. Qed.

Lemma lower_upper c : lower (upper c) = lower c.
Proof. by destruct c as [[] [] [] [] [] [] [] []]. Qed.

Lemma upper_lower c : upper (lower c) = upper c.
Proof. by destruct c as [[] [] [] [] [] [] [] []]. Qed.

Lemma lstrip_clean l : clean_head (lstrip l).
Proof. induction l as [|c l IH]; simpl; [done|]. by destruct (isspace c) eqn:Hc. Qed.

Lemma lstrip_id l : clean_head l -> lstrip l = l.
Proof. destruct l as [|c l]; simpl; [done|]. by intros ->. Qed.

Lemma rstrip_clean l : clean_head l -> clean_head (rstrip l).
Proof.
  destruct l as [|c l]; simpl; [done|]. intros Hc.
  destruct (rstrip l); by rewrite ?Hc.
Qed.

Lemma rstrip_idem l : rstrip (rstrip l) = rstrip l.
Proof.
  induction l as [|c l IH]; simpl; [done|].
  destruct (rstrip l) as [|k kept] eqn:Hr.
  - destruct (isspace c) eqn:Hc; simpl; by rewrite ?Hc.
  - change (rstrip (c :: k :: kept)) with
      (match rstrip (k :: kept) with
       | [] => if isspace c then [] else [c]
       | kept' => c :: kept'
       end).
    by rewrite IH.
Qed.

Lemma strip_idem l : strip (strip l) = strip l.
Proof.
  unfold strip.
  rewrite (lstrip_id (rstrip (lstrip l))) by apply rstrip_clean, lstrip_clean.
  apply rstrip_idem.
Qed.

Lemma lstrip_lower l : lstrip (map lower l) = map lower (lstrip l).
Proof.
  induction l as [|c l IH]; simpl; [done|].
  rewrite lower_isspace. by destruct (isspace c).
Qed.

Lemma rstrip_lower l : rstrip (map lower l) = map lower (rstrip l).
Proof.
  induction l as [|c l IH]; simpl; [done|].
  rewrite IH, lower_isspace.
  destruct (rstrip l); simpl; [by destruct (isspace c)|done].
Qed.

Lemma strip_lower l : strip (map lower l) = map lower (strip l).
Proof. unfold strip. by rewrite lstrip_lower, rstrip_lower. Qed.

Lemma lower_isascii c : isascii (lower c) = isascii c.
Proof. by destruct c as [[] [] [] [] [] [] [] []]. Qed.

Lemma upper_isascii c : isascii (upper c) = isascii c.
Proof. by destruct c as [[] [] [] [] [] [] [] []]. Qed.

Lemma lstrip_Forall (P : ascii -> Prop) l : Forall P l -> Forall P (lstrip l).
Proof.
  induction 1 as [|c l Hc Hl IH]; simpl; [done|].
  destruct (isspace c); [done|by constructor].
Qed.

Lemma rstrip_Forall (P : ascii -> Prop) l : Forall P l -> Forall P (rstrip l).
Proof.
  induction 1 as [|c l Hc Hl IH]; simpl; [done|].
  destruct (rstrip l); [destruct (isspace c)|]; by try constructor.
Qed.

(** Every word [load_dictionary] reads from a file of ASCII lines has
    between [min_word_length] and [max_word_length] characters, all ASCII,
    no uppercase letter, and no white space at either end. *)
Theorem load_dictionary_words lines :
  Forall ascii_word lines ->
  Forall (fun word =>
            config.min_word_length <= len (chars word) <= config.max_word_length
            /\ ascii_word word
            /\ any isupper (chars word) = false
            /\ strip (chars word) = chars word)
         (load_dictionary (Some lines)).
Proof.
  intros Hascii. unfold load_dictionary. apply Forall_map, Forall_forall.
  intros line [[Hmin Hmax] Hline]%list_elem_of_filter.
  unfold ascii_word. rewrite chars_join. split_and!.
  - unfold len in *. by rewrite length_map.
  - unfold len in *. by rewrite length_map.
  - rewrite Forall_forall in Hascii. specialize (Hascii line Hline).
    apply Forall_map. unfold strip.
    eapply Forall_impl; [by apply rstrip_Forall, lstrip_Forall, Hascii|].
    intros c Hc. simpl. by rewrite lower_isascii.
  - apply any_false. intros c (c0 & -> & _)%list_elem_of_fmap.
    apply lower_not_upper.
  - by rewrite strip_lower, strip_idem.
Qed.

Lemma load_dictionary_words_witness :
  let lines := ["  Passw0rd "; "cat"; "ELEPHANTS"; "Bird" +:+ String "010" ""]%string in
  Forall ascii_word lines
  /\ load_dictionary (Some lines) = ["passw0rd"; "bird"]%string
  /\ Forall (fun word =>
               config.min_word_length <= len (chars word) <= config.max_word_length
               /\ ascii_word word
               /\ any isupper (chars word) = false
               /\ strip (chars word) = chars word)
            (load_dictionary (Some lines)).
Proof.
  intros lines.
  assert (Hascii : Forall ascii_word lines) by (by repeat constructor).
  split; [exact Hascii|]. split; [by vm_compute|].
  exact (load_dictionary_words lines Hascii).
Defined.

End dictionary.

(* ===================================================================== *)
(** * [generate_variations] *)
(* ===================================================================== *)

Section variations.

Implicit Types (c : ascii) (word : string).

Lemma substitutions_lookup c glyphs :
  config.substitutions !! c = Some glyphs -> (c, glyphs) ∈ substitution_list.
Proof. apply elem_of_list_to_map_2. Qed.

(** [itertools.product], element by element. *)
Lemma elem_of_product {A} (pools : list (list A)) (combo : list A) :
  combo ∈ product pools <-> Forall2 (fun x pool => x ∈ pool) combo pools.
Proof.
  revert combo. induction pools as [|p ps IH]; intros combo; simpl.
  - rewrite list_elem_of_singleton. split; [intros ->; constructor|].
    by intros ->%Forall2_nil_inv_r.
  - rewrite list_elem_of_In, in_flat_map. split.
    + intros (y & Hy & Hin). apply in_map_iff in Hin as (rest & <- & Hrest).
      constructor; [by apply list_elem_of_In|]. by apply IH, list_elem_of_In.
    + intros (y & rest & Hy & Hrest & ->)%Forall2_cons_inv_r.
      exists y. split; [by apply list_elem_of_In|].
      apply in_map, list_elem_of_In. by apply IH.
Qed.

Lemma length_product {A} (pools : list (list A)) :
  length (product pools) = foldr (fun p n => (length p * n)%nat) 1%nat pools.
Proof.
  induction pools as [|p ps IH]; simpl; [done|]. rewrite <- IH.
  induction p as [|y p IHp]; simpl; [done|].
  by rewrite length_app, length_map, IHp.
Qed.

Lemma generate_variations_unfold word :
  generate_variations word
  = map join (product (map options (map lower (chars word)))).
Proof. done. Qed.

Lemma elem_of_generate_variations word v :
  v ∈ generate_variations word
  <-> Forall2 (fun x c => x ∈ options c) (chars v) (map lower (chars word)).
Proof.
  rewrite generate_variations_unfold, list_elem_of_fmap. split.
  - intros (combo & -> & Hin). rewrite chars_join.
    apply elem_of_product in Hin.
    by apply (Forall2_fmap_r options (fun x pool => x ∈ pool)) in Hin.
  - intros H. exists (chars v). split.
    + unfold join, chars. by rewrite string_of_list_ascii_of_string.
    + apply elem_of_product.
      by apply (Forall2_fmap_r options (fun x pool => x ∈ pool)).
Qed.

Ltac substitution_cases H :=
  apply substitutions_lookup in H; unfold substitution_list in H;
  repeat (apply elem_of_cons in H as [[= -> ->]|H]);
  [..|by apply elem_of_nil in H].

Lemma length_options c : (2 <= length (options c) <= 3)%nat.
Proof.
  unfold options. destruct (config.substitutions !! c) as [glyphs|] eqn:H.
  - substitution_cases H; simpl; lia.
  - simpl. lia.
Qed.

Lemma options_not_self c :
  is_Some (config.substitutions !! c) -> c ∉ options c.
Proof.
  unfold options. intros [glyphs H]. rewrite H.
  substitution_cases H; intros Hin%(bool_decide_pack _); by vm_compute in Hin.
Qed.

Lemma generate_variations_length word v :
  v ∈ generate_variations word -> length (chars v) = length (chars word).
Proof.
  intros Hv%elem_of_generate_variations.
  apply Forall2_length in Hv. by rewrite Hv, length_map.
Qed.

Lemma options_isascii c :
  isascii c = true -> Forall (fun x => isascii x = true) (options c).
Proof.
  intros Hc. unfold options.
  destruct (config.substitutions !! c) as [glyphs|] eqn:H.
  - substitution_cases H; by repeat constructor.
  - repeat constructor; by rewrite ?upper_isascii.
Qed.

Lemma generate_variations_isascii word v :
  ascii_word word -> v ∈ generate_variations word -> ascii_word v.
Proof.
  unfold ascii_word. intros Hword Hv%elem_of_generate_variations.
  assert (Hlow : Forall (fun c => isascii c = true) (map lower (chars word))).
  { apply Forall_map. eapply Forall_impl; [exact Hword|].
    intros c Hc. simpl. by rewrite lower_isascii. }
  clear Hword. induction Hv as [|x c l k Hx Hv IH]; [done|].
  apply Forall_cons in Hlow as [Hc Hlow]. constructor; [|by apply IH].
  pose proof (options_isascii c Hc) as Hall. rewrite Forall_forall in Hall.
  by apply Hall.
Qed.

(** For a word of [n] ASCII characters [generate_variations] yields at
    least [2 ^ n] and at most [3 ^ n] strings, each of [n] ASCII characters:
    every character has two or three glyphs, each one character long. *)
Theorem generate_variations_size word :
  ascii_word word ->
  2 ^ len (chars word) <= len (generate_variations word) <= 3 ^ len (chars word)
  /\ Forall (fun v => len (chars v) = len (chars word) /\ ascii_word v)
            (generate_variations word).
Proof.
  intros Hword. split.
  - rewrite generate_variations_unfold. unfold len.
    rewrite length_map, length_product.
    rewrite <- (length_map lower (chars word)).
    induction (map lower (chars word)) as [|c l IH]; [simpl; lia|].
    cbn [map foldr length]. pose proof (length_options c).
    rewrite !Nat2Z.inj_succ, !Z.pow_succ_r, Nat2Z.inj_mul by lia. nia.
  - apply Forall_forall. intros v Hv. unfold len.
    rewrite (generate_variations_length word v Hv).
    split; [done|]. by eapply generate_variations_isascii.
Qed.

Lemma generate_variations_size_witness :
  ascii_word "Cat"
  /\ len (generate_variations "Cat") = 12
  /\ 2 ^ len (chars "Cat") <= len (generate_variations "Cat") <= 3 ^ len (chars "Cat")
  /\ Forall (fun v => len (chars v) = len (chars "Cat") /\ ascii_word v)
            (generate_variations "Cat").
Proof.
  assert (Hword : ascii_word "Cat") by (by repeat constructor).
  split; [exact Hword|]. split; [by vm_compute|].
  exact (generate_variations_size "Cat" Hword).
Defined.

(** An ASCII word in capitals is among its variations. *)
Theorem generate_variations_upper word :
  ascii_word word ->
  join (map upper (chars word)) ∈ generate_variations word.
Proof.
  intros _. apply elem_of_generate_variations. rewrite chars_join.
  induction (chars word) as [|c l IH]; simpl; constructor; [|done].
  unfold options. rewrite upper_lower. apply elem_of_app. right. left.
Qed.

Lemma generate_variations_upper_witness :
  ascii_word "Cat" /\ "CAT"%string ∈ generate_variations "Cat".
Proof.
  assert (Hword : ascii_word "Cat") by (by repeat constructor).
  split; [exact Hword|]. exact (generate_variations_upper "Cat" Hword).
Defined.

(** The case of an ASCII word does not matter. *)
Theorem generate_variations_case word :
  ascii_word word ->
  generate_variations (join (map upper (chars word))) = generate_variations word
  /\ generate_variations (join (map lower (chars word))) = generate_variations word.
Proof.
  intros _.
  rewrite !generate_variations_unfold, !chars_join, !List.map_map.
  split; do 2 f_equal; apply map_ext; intros c; f_equal;
    [apply lower_upper | by destruct c as [[] [] [] [] [] [] [] []]].
Qed.

Lemma generate_variations_case_witness :
  ascii_word "Cat"
  /\ generate_variations "CAT" = generate_variations "Cat"
  /\ generate_variations "cat" = generate_variations "Cat".
Proof.
  assert (Hword : ascii_word "Cat") by (by repeat constructor).
  split; [exact Hword|]. exact (generate_variations_case "Cat" Hword).
Defined.

(** A word with a letter of the substitution table is never among its own
    variations in lower case: the table replaces the letter, it does not
    keep it. *)
Theorem generate_variations_never_plain word c :
  c ∈ map lower (chars word) ->
  is_Some (config.substitutions !! c) ->
  join (map lower (chars word)) ∉ generate_variations word.
Proof.
  intros Hc Hsub Hin. apply elem_of_generate_variations in Hin.
  rewrite chars_join in Hin.
  induction (map lower (chars word)) as [|x l IH]; [by apply elem_of_nil in Hc|].
  apply Forall2_cons in Hin as [Hx Hl].
  apply elem_of_cons in Hc as [<-|Hc]; [by apply (options_not_self c)|by apply IH].
Qed.

Lemma generate_variations_never_plain_witness :
  "a"%char ∈ map lower (chars "Cat")
  /\ is_Some (config.substitutions !! "a"%char)
  /\ "cat"%string ∉ generate_variations "Cat".
Proof.
  assert (Hc : "a"%char ∈ map lower (chars "Cat")) by (right; left).
  assert (Hs : is_Some (config.substitutions !! "a"%char)) by (by eexists).
  split; [exact Hc|]. split; [exact Hs|].
  exact (generate_variations_never_plain "Cat" "a" Hc Hs).
Defined.

End variations.

(* ===================================================================== *)
(** * [enhance_password]: what it keeps *)
(* ===================================================================== *)

Section enhancement_shape.

Implicit Types (password : string).

Lemma join_chars password : join (chars password) = password.
Proof. apply string_of_list_ascii_of_string. Qed.

Lemma sublist_insert_at {A} (l : list A) i x : l `sublist_of` insert_at l i x.
Proof.
  unfold insert_at. set (j := Z.to_nat _).
  rewrite <- (take_drop j l) at 1.
  apply sublist_app; [done|]. by apply sublist_cons.
Qed.

Lemma enhance_password_skips password t :
  any isupper (chars password) = true ->
  any isdigit (chars password) = true ->
  any is_symbol (chars password) = true ->
  enhance_password password t = (Return password, t).
Proof.
  intros Hup Hdig Hsym.
  unfold enhance_password, mbind, Rand_bind, mret, Rand_ret.
  rewrite Hup. cbn [negb]. cbv beta iota.
  rewrite Hdig. cbn [negb]. cbv beta iota.
  rewrite Hsym. cbn [negb]. cbv beta iota.
  by rewrite join_chars.
Qed.

(** A candidate that already has an uppercase letter, a digit and a symbol
    is returned as it is, and no random number is drawn. *)
Theorem enhance_password_compliant password t :
  any isupper (chars password) = true ->
  any isdigit (chars password) = true ->
  any is_symbol (chars password) = true ->
  enhance_password password t = (Return password, t).
Proof. apply enhance_password_skips. Qed.

Lemma enhance_password_compliant_witness :
  any isupper (chars "C@7") = true
  /\ any isdigit (chars "C@7") = true
  /\ any is_symbol (chars "C@7") = true
  /\ enhance_password "C@7" [3; 1; 4]%nat = (Return "C@7"%string, [3; 1; 4]%nat).
Proof.
  split_and!; [reflexivity..|].
  exact (enhance_password_compliant "C@7" _ eq_refl eq_refl eq_refl).
Defined.

(** What [enhance_password] does to the characters of a candidate that is
    not empty. *)
Lemma enhance_password_grows password :
  password <> ""%string ->
  ensures (enhance_password password) (fun out =>
    len (chars password) <= len (chars out) <= len (chars password) + 2
    /\ (any isupper (chars password) = true ->
        chars password `sublist_of` chars out)
    /\ (any isupper (chars password) = false ->
        exists i s, (i < length (chars password))%nat
          /\ s ∈ config.common_symbols
          /\ <[i := upper s]> (chars password) `sublist_of` chars out)).
Proof.
  intros Hne. unfold enhance_password.
  assert (Hlen : 0 < len (chars password)).
  { destruct password; [done|]. unfold len. simpl. lia. }
  eapply ensures_bind with
    (P := fun pwd => len pwd = len (chars password)
       /\ (any isupper (chars password) = true -> pwd = chars password)
       /\ (any isupper (chars password) = false ->
           exists i s, (i < length (chars password))%nat
             /\ s ∈ config.common_symbols
             /\ pwd = <[i := upper s]> (chars password))).
  { destruct (any isupper (chars password)) eqn:Hup; cbn [negb].
    - by apply ensures_ret.
    - eapply ensures_bind; [by apply ensures_choice|]. intros s Hs.
      eapply ensures_bind; [apply ensures_randint; lia|]. intros i Hi; cbv beta in Hi.
      eapply ensures_weaken; [apply ensures_setitem; lia|]. intros pwd ->.
      split; [unfold len; by rewrite length_insert|]. split; [done|].
      intros _. exists (Z.to_nat i), s. unfold len in *. split_and!; [lia|done|done]. }
  intros pwd1 (Hlen1 & Hup1 & Hlow1).
  eapply ensures_bind with
    (P := fun pwd => len pwd1 <= len pwd <= len pwd1 + 1 /\ pwd1 `sublist_of` pwd).
  { destruct (any isdigit pwd1); cbn [negb].
    - apply ensures_ret. split; [lia|done].
    - eapply ensures_bind; [apply ensures_randint; lia|]. intros i _.
      eapply ensures_bind; [by apply ensures_choice|]. intros d _.
      apply ensures_ret. split; [|apply sublist_insert_at].
      unfold len. rewrite length_insert_at. lia. }
  intros pwd2 [Hlen2 Hsub2].
  eapply ensures_bind with
    (P := fun pwd => len pwd2 <= len pwd <= len pwd2 + 1 /\ pwd2 `sublist_of` pwd).
  { destruct (any is_symbol pwd2); cbn [negb].
    - apply ensures_ret. split; [lia|done].
    - eapply ensures_bind; [apply ensures_randint; lia|]. intros i _.
      eapply ensures_bind; [by apply ensures_choice|]. intros d _.
      apply ensures_ret. split; [|apply sublist_insert_at].
      unfold len. rewrite length_insert_at. lia. }
  intros pwd3 [Hlen3 Hsub3]. apply ensures_ret. rewrite chars_join.
  split; [lia|]. split.
  - intros Hup. rewrite <- (Hup1 Hup). by etransitivity.
  - intros Hup. destruct (Hlow1 Hup) as (i & s & Hi & Hs & ->).
    exists i, s. split_and!; [done|done|by etransitivity].
Qed.

(** [enhance_password] keeps the characters of a candidate that has an
    uppercase letter, in their order, and inserts at most two. A candidate
    without one loses a character first: [enhance_password] overwrites one
    of its characters with a symbol of [common_symbols], and only then
    inserts. *)
Theorem enhance_password_shape password :
  password <> ""%string ->
  ensures (enhance_password password) (fun out =>
    len (chars password) <= len (chars out) <= len (chars password) + 2
    /\ (any isupper (chars password) = true ->
        chars password `sublist_of` chars out)
    /\ (any isupper (chars password) = false ->
        exists i s, (i < length (chars password))%nat
          /\ s ∈ config.common_symbols
          /\ <[i := upper s]> (chars password) `sublist_of` chars out)).
Proof. apply enhance_password_grows. Qed.

Lemma enhance_password_shape_witness :
  "cat"%string <> ""%string
  /\ ensures (enhance_password "cat") (fun out =>
       len (chars "cat") <= len (chars out) <= len (chars "cat") + 2
       /\ (any isupper (chars "cat") = true ->
           chars "cat" `sublist_of` chars out)
       /\ (any isupper (chars "cat") = false ->
           exists i s, (i < length (chars "cat"))%nat
             /\ s ∈ config.common_symbols
             /\ <[i := upper s]> (chars "cat") `sublist_of` chars out)).
Proof.
  assert (Hne : "cat"%string <> ""%string) by discriminate.
  split; [exact Hne|]. exact (enhance_password_shape "cat" Hne).
Defined.

(** If [enhance_password] returns, the candidate was not empty. *)
Lemma enhance_password_returns password t out t' :
  enhance_password password t = (Return out, t') -> password <> ""%string.
Proof.
  intros Hrun ->. by destruct t.
Qed.

(** Enhancing twice is enhancing once, for a candidate with an uppercase
    letter: what [enhance_password] returns for it is compliant, so a second
    call returns it unchanged and draws nothing. *)
Theorem enhance_password_twice password t out t' :
  any isupper (chars password) = true ->
  enhance_password password t = (Return out, t') ->
  forall t2, enhance_password out t2 = (Return out, t2).
Proof.
  intros Hup Hrun t2.
  pose proof (enhance_password_returns _ _ _ _ Hrun) as Hne.
  destruct (enhance_password_post password Hne t) as (out1 & t1 & Hrun1 & Hdig & Hsym & _).
  destruct (enhance_password_grows password Hne t) as (out2 & t3 & Hrun2 & _ & Hsub & _).
  rewrite Hrun in Hrun1, Hrun2. injection Hrun1 as <- <-. injection Hrun2 as <- <-.
  apply enhance_password_skips; [|done|done].
  apply any_true in Hup as (c & Hc & Hcu). apply any_true. exists c.
  split; [|done]. eapply elem_of_sublist; [done|]. apply Hsub, any_true; eauto.
Qed.

Lemma enhance_password_twice_witness :
  any isupper (chars "cAT") = true
  /\ enhance_password "cAT" [3; 1; 4; 1]%nat = (Return "c@1AT"%string, [])
  /\ enhance_password "c@1AT" [5; 9]%nat = (Return "c@1AT"%string, [5; 9]%nat).
Proof.
  assert (Hrun : enhance_password "cAT" [3; 1; 4; 1]%nat = (Return "c@1AT"%string, []))
    by reflexivity.
  split; [reflexivity|]. split; [exact Hrun|].
  exact (enhance_password_twice "cAT" _ _ _ eq_refl Hrun [5; 9]%nat).
Defined.

End enhancement_shape.

(* ===================================================================== *)
(** * The store: lookup after insert *)
(* ===================================================================== *)

Section store_lookup.

Implicit Types (t : list row) (pwd : string) (now : nat -> Z).

Lemma new_rows_from_params now k params present :
  Forall (fun pwd => pwd ∈ params) (map password (new_rows now k params present)).
Proof.
  revert k present. induction params as [|p rest IH]; intros k present; simpl.
  - constructor.
  - case_bool_decide.
    + eapply Forall_impl; [apply IH|]. intros x Hx. by right.
    + simpl. constructor; [left|].
      eapply Forall_impl; [apply IH|]. intros x Hx. by right.
Qed.

Lemma insert_batch_lookup now passwords t pwd :
  exists t', insert_batch now passwords t = Return t'
    /\ (db_exists pwd t' = true <-> db_exists pwd t = true \/ pwd ∈ passwords).
Proof.
  eexists. split; [apply insert_batch_returns|].
  rewrite !db_exists_keys. unfold keys. rewrite map_app, elem_of_app. split.
  - intros [?|Hnew]; [by left|right].
    pose proof (new_rows_from_params now 0 passwords (map password t)) as Hall.
    rewrite Forall_forall in Hall. by apply Hall.
  - intros [?|Hin]; [by left|].
    destruct (new_rows_covers now 0 passwords (map password t) pwd Hin); auto.
Qed.

(** Lookup after insert: when [insert_batch] has returned, [exists]
    answers yes exactly for the keys that were there before and the keys of
    the batch; a key that is neither is still missing. *)
Theorem exists_after_insert_batch now passwords t t' pwd :
  insert_batch now passwords t = Return t' ->
  db_exists pwd t' = true <-> db_exists pwd t = true \/ pwd ∈ passwords.
Proof.
  intros Hins. destruct (insert_batch_lookup now passwords t pwd) as (t1 & Ht1 & H).
  rewrite Hins in Ht1. by injection Ht1 as <-.
Qed.

Lemma exists_after_insert_batch_witness :
  insert_batch demo_clock ["b"; "a"]%string [Row "c" 7]
  = Return [Row "c" 7; Row "b" (demo_clock 0); Row "a" (demo_clock 1)]
  /\ (db_exists "a" [Row "c" 7; Row "b" (demo_clock 0); Row "a" (demo_clock 1)] = true
      <-> db_exists "a" [Row "c" 7] = true \/ "a"%string ∈ ["b"; "a"]%string)
  /\ db_exists "d" [Row "c" 7; Row "b" (demo_clock 0); Row "a" (demo_clock 1)] = false.
Proof.
  assert (Hins : insert_batch demo_clock ["b"; "a"]%string [Row "c" 7]
                 = Return [Row "c" 7; Row "b" (demo_clock 0); Row "a" (demo_clock 1)])
    by reflexivity.
  split; [exact Hins|]. split; [|reflexivity].
  exact (exists_after_insert_batch demo_clock _ _ _ "a" Hins).
Defined.

Lemma executemany_app c now k params1 params2 t :
  executemany c now k (params1 ++ params2) t
  = executemany c now k params1 t
      ≫= executemany c now (k + length params1) params2.
Proof.
  revert k t. induction params1 as [|p rest IH]; intros k t; simpl.
  - by rewrite Nat.add_0_r.
  - destruct (insert c p (now k) t) as [t1|e]; [|done].
    rewrite IH. by replace (S k + length rest)%nat with (k + S (length rest))%nat by lia.
Qed.

Lemma executemany_shift c now n k params t :
  executemany c (fun j => now (n + j)%nat) k params t
  = executemany c now (n + k) params t.
Proof.
  revert k t. induction params as [|p rest IH]; intros k t; simpl; [done|].
  destruct (insert c p (now (n + k)%nat) t) as [t1|e]; [|done].
  rewrite IH. by replace (n + S k)%nat with (S (n + k)) by lia.
Qed.

Lemma insert_batch_split now first second t :
  insert_batch now (first ++ second) t
  = insert_batch now first t
      ≫= insert_batch (fun k => now (length first + k)%nat) second.
Proof.
  unfold insert_batch. rewrite executemany_app.
  destruct (executemany OrIgnore now 0 first t) as [t1|e]; [|done].
  cbn [mbind outcome_bind]. by rewrite executemany_shift, Nat.add_0_r.
Qed.

(** One batch is its two halves one after the other: inserting
    [first ++ second] is inserting [first] and then [second], the clock of
    the second call running on from the first. *)
Theorem insert_batch_app now first second t :
  insert_batch now (first ++ second) t
  = insert_batch now first t
      ≫= insert_batch (fun k => now (length first + k)%nat) second.
Proof. apply insert_batch_split. Qed.

(** The first statement that brings a new key fixes its [created] time:
    if [pwd] is not in the table and stands first at place [i] of the batch,
    the table [insert_batch] returns holds the row [(pwd, now i)]. *)
Theorem insert_batch_created now passwords t pwd i :
  pwd ∉ keys t ->
  passwords !! i = Some pwd ->
  pwd ∉ take i passwords ->
  exists t', insert_batch now passwords t = Return t' /\ Row pwd (now i) ∈ t'.
Proof.
  intros Hnew Hi Hfirst.
  rewrite <- (take_drop_middle _ _ _ Hi), insert_batch_split.
  destruct (insert_batch_lookup now (take i passwords) t pwd)
    as (t1 & -> & Hex).
  cbn [mbind outcome_bind].
  assert (Hfresh : pwd ∉ keys t1).
  { rewrite <- db_exists_keys, Hex, db_exists_keys. tauto. }
  assert (Hlen : length (take i passwords) = i).
  { apply length_take_le. apply lookup_lt_Some in Hi. lia. }
  unfold insert_batch. simpl. rewrite insert_or_ignore.
  rewrite bool_decide_eq_false_2 by done.
  rewrite executemany_or_ignore. eexists. split; [done|].
  rewrite Hlen, Nat.add_0_r. apply elem_of_app. left. apply elem_of_app. right. left.
Qed.

Lemma insert_batch_created_witness :
  ("a"%string ∉ keys [Row "b" 7])
  /\ ["b"; "a"; "c"; "a"] !! 1%nat = Some "a"%string
  /\ ("a"%string ∉ take 1 ["b"; "a"; "c"; "a"])
  /\ exists t', insert_batch demo_clock ["b"; "a"; "c"; "a"] [Row "b" 7] = Return t'
       /\ Row "a" (demo_clock 1) ∈ t'.
Proof.
  assert (H1 : "a"%string ∉ keys [Row "b" 7]).
  { intros H%(bool_decide_pack _). by vm_compute in H. }
  assert (H2 : "a"%string ∉ take 1 ["b"; "a"; "c"; "a"]).
  { intros H%(bool_decide_pack _). by vm_compute in H. }
  split; [exact H1|]. split; [reflexivity|]. split; [exact H2|].
  exact (insert_batch_created demo_clock ["b"; "a"; "c"; "a"] _ "a" 1 H1 eq_refl H2).
Defined.

End store_lookup.

(* ===================================================================== *)
(** * The queue between the workers and the writer *)
(* ===================================================================== *)

Section queue.

Implicit Types (s : system) (a : action) (schedule : list action).

Lemma step_kind_of a s : step_kind s (step a s).
Proof.
  destruct a as [i t fault|now fault| |]; simpl.
  - destruct (workers s !! i) as [w|] eqn:Hi; [|by apply StepNone].
    destruct (worker_step t fault (sh s) w) as [[sh' w']|] eqn:Hstep;
      [|by apply StepNone].
    by eapply StepWorker.
  - destruct (writer_step now fault (sh s) (wr s)) as [[sh' r']|] eqn:Hstep;
      [|by apply StepNone].
    by eapply StepWriter.
  - destruct (monitor_step s) as [s'|] eqn:Hstep; simpl; [|by apply StepNone].
    by apply StepMonitor.
  - by apply StepSignal.
Qed.

(** An invariant of every step is an invariant of every run. *)
Lemma run_invariant (P : system -> Prop) schedule s :
  (forall s s', step_kind s s' -> P s -> P s') -> P s -> P (run schedule s).
Proof.
  intros Hstep Hs. induction schedule as [|a schedule IH] using rev_ind; [done|].
  rewrite run_snoc. eapply Hstep; [apply step_kind_of|done].
Qed.

(** What a step of a worker does to its chunk, its pushes and the shared
    state. *)
Lemma worker_step_effect t fault sh w sh' w' :
  worker_step t fault sh w = Some (sh', w') ->
  stop_event sh' = stop_event sh /\ db sh' = db sh
  /\ exists new,
       pushed (trail w') = pushed (trail w) ++ new
       /\ output_queue sh' = output_queue sh ++ new
       /\ (new = [] \/ exists e, new = [e] /\ full (output_queue sh) = false).
Proof.
  unfold worker_step. intros H.
  repeat case_match; simplify_eq; simpl; split_and!; try done.
  all: try (exists []; rewrite ?pushed_snoc, ?app_nil_r; split_and!; [done|done|by left]).
  eexists [_]. rewrite pushed_snoc. split_and!; [done|done|right; eauto].
Qed.

Lemma writer_step_effect now fault sh r sh' r' :
  writer_step now fault sh r = Some (sh', r') ->
  stop_event sh' = stop_event sh
  /\ dequeued r' ++ output_queue sh' = dequeued r ++ output_queue sh
  /\ len (output_queue sh') <= len (output_queue sh).
Proof.
  unfold writer_step. intros H.
  repeat case_match; simplify_eq; simpl; split_and!; try done; try lia.
  all: try (by rewrite <- app_assoc).
  all: try match goal with H : output_queue _ = _ |- _ => rewrite H end.
  all: try done.
  all: unfold len; simpl; lia.
Qed.

Lemma all_pushed_insert ws i w w' new :
  ws !! i = Some w ->
  pushed (trail w') = pushed (trail w) ++ new ->
  all_pushed (<[i := w']> ws) ≡ₚ all_pushed ws ++ new.
Proof.
  unfold all_pushed. revert i. induction ws as [|x ws IH]; intros [|i] Hi Hw; try done.
  - simpl in Hi. injection Hi as ->. simpl. rewrite Hw.
    rewrite <- !app_assoc. f_equiv. apply Permutation_app_comm.
  - simpl in Hi. simpl. rewrite (IH i Hi Hw). by rewrite app_assoc.
Qed.

Lemma all_pushed_start chunks : all_pushed (map start_worker chunks) = [].
Proof. unfold all_pushed. by induction chunks. Qed.

Lemma queue_inv_step s s' : step_kind s s' -> queue_inv s -> queue_inv s'.
Proof.
  intros Hk (Hbound & Hperm & Hsub).
  destruct Hk as [-> | i t fault w sh' w' Hi Hstep -> | clock fault sh' r' Hstep -> | Hstep | ->];
    try done.
  - destruct (worker_step_effect _ _ _ _ _ _ Hstep)
      as (_ & _ & new & Hpushed & Hqueue & Hnew).
    unfold queue_inv. simpl. rewrite Hqueue, app_assoc. split_and!.
    + destruct Hnew as [->|(e & -> & Hfull)]; [by rewrite app_nil_r|].
      unfold full, len in *. rewrite length_app. simpl.
      apply Z.leb_gt in Hfull. lia.
    + rewrite (all_pushed_insert _ _ _ _ _ Hi Hpushed). by f_equiv.
    + apply Forall_insert.
      * eapply Forall_impl; [exact Hsub|]. intros x Hx. by apply sublist_inserts_r.
      * rewrite Hpushed. apply sublist_app; [|done].
        rewrite Forall_forall in Hsub. apply Hsub. by eapply list_elem_of_lookup_2.
  - destruct (writer_step_effect _ _ _ _ _ _ Hstep) as (_ & Heq & Hlen).
    unfold queue_inv. simpl. rewrite Heq. split_and!; [lia|done|done].
  - destruct (monitor_step_frame _ _ Hstep) as (Hsh & Hws & Hwr).
    unfold queue_inv. by rewrite Hsh, Hws, Hwr.
Qed.

Lemma queue_inv_main file words cpu_count s0 :
  main file words cpu_count = Return s0 -> queue_inv s0.
Proof.
  unfold main. destruct (word_chunks _ _) as [chunks|e]; [|done].
  intros [= <-]. unfold queue_inv. simpl. rewrite all_pushed_start. split_and!.
  - done.
  - done.
  - apply Forall_map, Forall_true. intros chunk. simpl. apply sublist_nil_l.
Qed.

Lemma queue_bounded_and_conserving_inv file words cpu_count s0 schedule :
  main file words cpu_count = Return s0 -> queue_inv (run schedule s0).
Proof.
  intros Hmain. apply (run_invariant queue_inv); [apply queue_inv_step|].
  by eapply queue_inv_main.
Qed.

(** Backpressure and conservation. In every state reached by a run in
    which no signal finds a process inside a call to the manager, the queue
    holds at most [maxsize] candidates; what the writer has taken followed
    by what is in the queue is, up to order, exactly what the workers have
    pushed; and it holds the pushes of each worker in the order that worker
    made them. *)
Theorem queue_bounded_and_conserving file words cpu_count s0 history s :
  main file words cpu_count = Return s0 ->
  follow history s0 = Some s ->
  len (output_queue (sh s)) <= maxsize
  /\ dequeued (wr s) ++ output_queue (sh s) ≡ₚ all_pushed (workers s)
  /\ Forall (fun w => pushed (trail w)
                      `sublist_of` dequeued (wr s) ++ output_queue (sh s))
            (workers s).
Proof.
  intros Hmain ->%follow_run. by eapply queue_bounded_and_conserving_inv.
Qed.

Lemma queue_bounded_and_conserving_witness :
  let s := run demo_schedule demo_system in
  main None fallback_words 3 = Return demo_system
  /\ follow (map Does demo_schedule) demo_system = Some s
  /\ len (output_queue (sh s)) <= maxsize
  /\ dequeued (wr s) ++ output_queue (sh s) ≡ₚ all_pushed (workers s)
  /\ Forall (fun w => pushed (trail w)
                      `sublist_of` dequeued (wr s) ++ output_queue (sh s))
            (workers s).
Proof.
  intros s.
  assert (Hrun : follow (map Does demo_schedule) demo_system = Some s)
    by apply follow_actions.
  split; [exact demo_main|]. split; [exact Hrun|].
  exact (queue_bounded_and_conserving None _ 3 demo_system _ s demo_main Hrun).
Defined.

End queue.

(* ===================================================================== *)
(** * The words of a worker and the batches of the writer *)
(* ===================================================================== *)

Section batches.

Implicit Types (s : system) (a : action) (schedule : list action).

Lemma swap_Permutation {A} (l : list A) i j : swap l i j ≡ₚ l.
Proof.
  unfold swap. destruct (l !! i) as [x|] eqn:Hi; [|done].
  destruct (l !! j) as [y|] eqn:Hj; [|done].
  by apply Permutation_insert_swap.
Qed.

Lemma shuffle_from_Permutation {A} i (l : list A) t :
  exists l' t', shuffle_from i l t = (Return l', t') /\ l' ≡ₚ l.
Proof.
  revert l t. induction i as [|i IH]; intros l t; simpl.
  - by exists l, t.
  - unfold mbind, Rand_bind.
    destruct (draw t) as [[n|e] t1] eqn:Hd; [|by destruct t].
    destruct (IH (swap l (S i) (n mod (S i + 1))) t1) as (l' & t' & Hrun & Hperm).
    exists l', t'. split; [done|]. by rewrite Hperm, swap_Permutation.
Qed.

(** [random.shuffle] returns, and what it returns is a permutation. *)
Lemma shuffle_Permutation {A} (l : list A) t :
  exists l' t', shuffle l t = (Return l', t') /\ l' ≡ₚ l.
Proof. apply shuffle_from_Permutation. Qed.

Lemma worker_step_chunk t fault sh w sh' w' :
  worker_step t fault sh w = Some (sh', w') -> word_chunk w' ≡ₚ word_chunk w.
Proof.
  unfold worker_step. intros H.
  destruct (shuffle_Permutation (word_chunk w) t) as (l' & t' & Hrun & Hperm).
  rewrite Hrun in H.
  repeat case_match; simplify_eq; simpl; done.
Qed.

(** However the processes run, every worker still has the words it was
    started with, in some order: reshuffling at the top of its loop neither
    loses a word nor repeats one. *)
Theorem worker_keeps_its_words s0 schedule :
  Forall2 (fun w w0 => word_chunk w ≡ₚ word_chunk w0)
          (workers (run schedule s0)) (workers s0).
Proof.
  apply (run_invariant (fun s => Forall2 (fun w w0 => word_chunk w ≡ₚ word_chunk w0)
                                    (workers s) (workers s0))).
  - intros s s' Hk Hinv.
    destruct Hk as [-> | i t fault w sh' w' Hi Hstep -> | clock fault sh' r' Hstep ->
                   | Hstep | ->]; try done.
    + simpl. destruct (Forall2_lookup_l _ _ _ _ _ Hinv Hi) as (w0 & H0 & Hperm).
      rewrite <- (list_insert_id _ _ _ H0). apply Forall2_insert; [done|].
      by rewrite (worker_step_chunk _ _ _ _ _ _ Hstep).
    + by destruct (monitor_step_frame _ _ Hstep) as (_ & -> & _).
  - by apply Forall_Forall2_diag, Forall_true.
Qed.

Lemma batch_inv_step now fault sh r sh' r' :
  writer_step now fault sh r = Some (sh', r') -> batch_inv r -> batch_inv r'.
Proof.
  unfold writer_step, batch_inv, writer_is_alive. intros H (Hb & Hfl & Hfull & Hlog).
  assert (Hbs : 0 < config.batch_size) by done.
  repeat case_match; simplify_eq; simpl in *;
    repeat match goal with
           | Hlt : (_ <? _) = true |- _ => apply Z.ltb_lt in Hlt
           | Hlt : (_ <? _) = false |- _ => apply Z.ltb_ge in Hlt
           end;
    split_and!; try done; try (intros _; by apply Hfull);
    rewrite ?Forall_app, ?Forall_singleton; simpl.
  all: try (unfold len in *; rewrite ?length_app; simpl; lia).
  all: try (split; [by auto|]; simpl; try lia).
  all: try (intros _; split; [by auto|]; simpl; lia).
  all: try (unfold len in *; simpl in *; lia).
  all: match goal with Hbr : batch _ = _ |- _ => rewrite Hbr end.
  all: unfold len in *; simpl in *; lia.
Qed.

(** In every state a run of the program reaches, the batch of the writer
    has at most [batch_size] candidates; every batch it handed to
    [insert_batch] was not empty and had at most [batch_size]; every batch
    it handed over inside its loop, and every count it logged, was exactly
    [batch_size]: only the final flush can be shorter. *)
Theorem writer_batches_are_bounded file words cpu_count s0 schedule :
  main file words cpu_count = Return s0 ->
  batch_inv (wr (run schedule s0)).
Proof.
  intros Hmain. apply (run_invariant (fun s => batch_inv (wr s))).
  - intros s s' Hk Hinv.
    destruct Hk as [-> | i t fault w sh' w' Hi Hstep -> | clock fault sh' r' Hstep ->
                   | Hstep | ->]; try done.
    + by eapply batch_inv_step.
    + by destruct (monitor_step_frame _ _ Hstep) as (_ & _ & ->).
  - unfold main in Hmain. destruct (word_chunks _ _); [|done].
    injection Hmain as <-. unfold batch_inv. simpl. split_and!; by try constructor.
Qed.

Lemma writer_batches_are_bounded_witness :
  main None fallback_words 3 = Return demo_system
  /\ batch_inv (wr (run demo_schedule demo_system)).
Proof.
  split; [exact demo_main|].
  exact (writer_batches_are_bounded None _ 3 demo_system demo_schedule demo_main).
Defined.







End batches.

(* ===================================================================== *)
(** * The joins of [main] *)
(* ===================================================================== *)

Section shutdown.

Implicit Types (s : system) (a : action) (schedule : list action).

Lemma join_inv_step s s' : step_kind s s' -> join_inv s -> join_inv s'.
Proof.
  intros Hk Hinv.
  destruct Hk as [-> | i t fault w sh' w' Hi Hstep -> | clock fault sh' r' Hstep ->
                 | Hstep | ->]; try done.
  - pose proof (worker_step_alive _ _ _ _ _ _ Hstep) as Halive.
    destruct (worker_step_frame _ _ _ _ _ _ Hstep) as (Hstop & _).
    assert (Hdead : Forall (fun w => is_alive w = false) (workers s) -> False).
    { intros Hall. rewrite Forall_forall in Hall.
      rewrite (Hall w) in Halive; [done|]. by eapply list_elem_of_lookup_2. }
    unfold join_inv in *. simpl. destruct (mpc (mon s)) as [| |j| |]; try done.
    + destruct Hinv as [Hs Hall]. split; [congruence|].
      rewrite take_insert_ge; [done|].
      destruct (decide (j <= i)%nat) as [|Hlt]; [done|]. exfalso.
      rewrite Forall_forall in Hall. rewrite (Hall w) in Halive; [done|].
      apply (list_elem_of_lookup_2 _ i). rewrite lookup_take_lt by lia. done.
    + destruct Hinv as [_ Hall]. by destruct Hdead.
    + destruct Hinv as (_ & Hall & _). by destruct Hdead.
  - pose proof (writer_step_alive _ _ _ _ _ _ Hstep) as Halive.
    destruct (writer_step_frame _ _ _ _ _ _ Hstep) as (Hstop & _).
    unfold join_inv in *. simpl. destruct (mpc (mon s)); try done.
    + destruct Hinv. split; [congruence|done].
    + destruct Hinv. split; [congruence|done].
    + destruct Hinv as (_ & _ & Hdead). congruence.
  - destruct (monitor_step_frame _ _ Hstep) as (Hsh & Hws & Hwr).
    unfold monitor_step in Hstep. unfold join_inv in *. rewrite Hsh, Hws, Hwr.
    clear Hsh Hws Hwr.
    destruct (mpc (mon s)) as [| |j| |] eqn:Hpc;
      repeat match type of Hstep with
             | context [match ?x with _ => _ end] => destruct x eqn:?
             | context [if ?x then _ else _] => destruct x eqn:?
             end;
      simplify_eq; simpl; try done.
    + destruct Hinv as [Hs Hall]. split; [done|].
      erewrite take_S_r by done. apply Forall_app. split; [done|].
      by constructor.
    + destruct Hinv as [Hs Hall]. split; [done|].
      rewrite take_ge in Hall; [done|]. by apply lookup_ge_None.
    + by destruct Hinv as [Hs Hall].
  - unfold join_inv in *. simpl.
    destruct (mpc (mon s)); try done;
      [by destruct Hinv | by destruct Hinv | by destruct Hinv as (? & ? & ?)].
Qed.

(** Shutdown order. In every state a run of the program reaches: [main] is
    past its monitor loop only if the event is set; while it joins worker
    [i], the workers before [i] have exited; it joins the writer only when
    every worker has exited; and it reaches the end only when the writer has
    exited too. *)
Theorem main_joins_workers_then_writer file words cpu_count s0 schedule :
  main file words cpu_count = Return s0 ->
  let s := run schedule s0 in
  match mpc (mon s) with
  | MWhile | MSleep => True
  | MJoin i =>
      stop_event (sh s) = true
      /\ Forall (fun w => is_alive w = false) (take i (workers s))
  | MJoinWriter =>
      stop_event (sh s) = true
      /\ Forall (fun w => is_alive w = false) (workers s)
  | MDone =>
      stop_event (sh s) = true
      /\ Forall (fun w => is_alive w = false) (workers s)
      /\ writer_is_alive (wr s) = false
  end.
Proof.
  intros Hmain. apply (run_invariant join_inv); [apply join_inv_step|].
  unfold main in Hmain. destruct (word_chunks _ _); [|done].
  by injection Hmain as <-.
Qed.

Lemma main_joins_workers_then_writer_witness :
  main None fallback_words 3 = Return demo_system
  /\ let s := run demo_shutdown demo_system in
     mpc (mon s) = MDone
     /\ stop_event (sh s) = true
     /\ Forall (fun w => is_alive w = false) (workers s)
     /\ writer_is_alive (wr s) = false.
Proof.
  split; [exact demo_main|]. split; [reflexivity|].
  exact (main_joins_workers_then_writer None _ 3 demo_system demo_shutdown demo_main).
Defined.

End shutdown.

(* ===================================================================== *)
(** * Where the rows come from *)
(* ===================================================================== *)

Section provenance.

Implicit Types (s : system) (a : action) (schedule : list action).

Lemma enhance_password_good variation t e t' :
  enhance_password variation t = (Return e, t') -> digit_and_symbol e.
Proof.
  intros Hrun. pose proof (enhance_password_returns _ _ _ _ Hrun) as Hne.
  destruct (enhance_password_post variation Hne t) as (out & t1 & Hrun1 & ? & ? & _).
  rewrite Hrun in Hrun1. by injection Hrun1 as <- <-.
Qed.

Lemma candidate_inv_step t fault sh w sh' w' :
  worker_step t fault sh w = Some (sh', w') -> candidate_inv w -> candidate_inv w'.
Proof.
  unfold worker_step, candidate_inv. intros H [Hall Hput].
  repeat case_match; simplify_eq; simpl; rewrite ?pushed_snoc, ?app_nil_r;
    (split; [|try done]); try done.
  - intros e vars' words' [= <- _ _]. by eapply enhance_password_good.
  - apply Forall_app. split; [done|]. constructor; [|constructor]. by eapply Hput.
Qed.

Lemma writer_step_db now fault sh r sh' r' :
  writer_step now fault sh r = Some (sh', r') ->
  (db sh' = db sh /\ committed r' = committed r)
  \/ (insert_batch now (batch r) (db sh) = Return (db sh')
      /\ committed r' = committed r ++ batch r).
Proof.
  unfold writer_step, committed. intros H.
  repeat case_match; simplify_eq;
    unfold writer_at, flush_failed; cbn [flushes db with_db];
    rewrite ?committed_of_snoc, ?app_nil_r; try (by left).
  all: right; split; [congruence|done].
Qed.

Lemma db_inv_step db0 s s' : step_kind s s' -> db_inv db0 s -> db_inv db0 s'.
Proof.
  intros Hk [Hnd Hall].
  destruct Hk as [-> | i t fault w sh' w' Hi Hstep -> | clock fault sh' r' Hstep ->
                 | Hstep | ->]; try done.
  - destruct (worker_step_frame _ _ _ _ _ _ Hstep) as (_ & Hdb & _).
    unfold db_inv. simpl. by rewrite Hdb.
  - unfold db_inv. simpl.
    destruct (writer_step_db _ _ _ _ _ _ Hstep) as [[-> ->]|[Hins ->]]; [done|].
    destruct (insert_batch_keys _ _ _ _ Hins) as (_ & _ & Hnd').
    split; [by apply Hnd'|].
    rewrite insert_batch_returns in Hins. injection Hins as <-.
    unfold keys. rewrite map_app. apply Forall_app. split.
    + eapply Forall_impl; [exact Hall|]. intros k [?|?]; [by left|right].
      apply elem_of_app. by left.
    + eapply Forall_impl; [apply new_rows_from_params|]. intros k Hk. right.
      apply elem_of_app. by right.
  - destruct (monitor_step_frame _ _ Hstep) as (Hsh & _ & Hwr).
    unfold db_inv. by rewrite Hsh, Hwr.
Qed.

Lemma all_pushed_elem ws pwd :
  pwd ∈ all_pushed ws <-> exists w, w ∈ ws /\ pwd ∈ pushed (trail w).
Proof.
  unfold all_pushed. rewrite list_elem_of_In, in_concat. split.
  - intros (l & Hl & Hin). apply in_map_iff in Hl as (w & <- & Hw).
    exists w. by rewrite !list_elem_of_In.
  - intros (w & Hw & Hin). exists (pushed (trail w)).
    split; [apply (in_map (fun w => pushed (trail w)))|]; by apply list_elem_of_In.
Qed.

Lemma rows_come_from_workers_run file words cpu_count s0 schedule :
  main file words cpu_count = Return s0 ->
  NoDup (keys (_init_db file)) ->
  let s := run schedule s0 in
  NoDup (keys (db (sh s)))
  /\ Forall (fun k => k ∈ keys (_init_db file)
                      \/ (k ∈ all_pushed (workers s) /\ digit_and_symbol k))
            (keys (db (sh s))).
Proof.
  intros Hmain Hnd s.
  assert (Hdb0 : db (sh s0) = _init_db file
                 /\ Forall candidate_inv (workers s0)).
  { unfold main in Hmain. destruct (word_chunks _ _); [|done].
    injection Hmain as <-. split; [done|]. simpl.
    apply Forall_map, Forall_true. intros chunk. split; [constructor|done]. }
  destruct Hdb0 as [Hdb0 Hc0].
  assert (Hdb : db_inv (_init_db file) s).
  { apply (run_invariant (db_inv (_init_db file))); [apply db_inv_step|].
    split; rewrite Hdb0; [done|]. apply Forall_forall. by left. }
  assert (Hcand : Forall candidate_inv (workers s)).
  { apply (run_invariant (fun s => Forall candidate_inv (workers s))); [|done].
    intros s1 s2 Hk Hinv.
    destruct Hk as [-> | i t fault w sh' w' Hi Hstep -> | clock fault sh' r' Hstep ->
                   | Hstep | ->]; try done.
    - simpl. apply Forall_insert; [done|]. eapply candidate_inv_step; [done|].
      rewrite Forall_forall in Hinv. apply Hinv. by eapply list_elem_of_lookup_2.
    - by destruct (monitor_step_frame _ _ Hstep) as (_ & -> & _). }
  destruct (reachable_inv _ _ _ _ schedule Hmain) as (_ & (Hdeq & _) & _).
  destruct (queue_bounded_and_conserving_inv _ _ _ _ schedule Hmain) as (_ & Hperm & _).
  fold s in Hdeq, Hperm. destruct Hdb as [Hnd' Hall]. split; [done|].
  eapply Forall_impl; [exact Hall|]. intros k [?|Hk]; [by left|right].
  assert (Hin : k ∈ all_pushed (workers s)).
  { rewrite <- Hperm, Hdeq. apply elem_of_app. left. apply elem_of_app. by left. }
  split; [done|]. apply all_pushed_elem in Hin as (w & Hw & Hin).
  rewrite Forall_forall in Hcand. destruct (Hcand w Hw) as [Hgood _].
  rewrite Forall_forall in Hgood. by apply Hgood.
Qed.

(** Where rows come from. If the keys of the database file are unique when
    [main] starts, then in every state reached by a run in which no signal
    finds a process inside a call to the manager they still are, and every
    key of the table was in the file at the start or is a candidate some
    worker pushed, with a digit and a symbol in it. *)
Theorem rows_come_from_workers file words cpu_count s0 history s :
  main file words cpu_count = Return s0 ->
  NoDup (keys (_init_db file)) ->
  follow history s0 = Some s ->
  NoDup (keys (db (sh s)))
  /\ Forall (fun k => k ∈ keys (_init_db file)
                      \/ (k ∈ all_pushed (workers s) /\ digit_and_symbol k))
            (keys (db (sh s))).
Proof.
  intros Hmain Hnd ->%follow_run. by eapply rows_come_from_workers_run.
Qed.

Lemma rows_come_from_workers_witness :
  let s := run demo_schedule demo_system in
  main None fallback_words 3 = Return demo_system
  /\ NoDup (keys (_init_db None))
  /\ follow (map Does demo_schedule) demo_system = Some s
  /\ keys (db (sh s)) = ["!09"]%string
  /\ NoDup (keys (db (sh s)))
  /\ Forall (fun k => k ∈ keys (_init_db None)
                      \/ (k ∈ all_pushed (workers s) /\ digit_and_symbol k))
            (keys (db (sh s))).
Proof.
  intros s.
  assert (Hnd : NoDup (keys (_init_db None))) by constructor.
  assert (Hrun : follow (map Does demo_schedule) demo_system = Some s)
    by apply follow_actions.
  split; [exact demo_main|]. split; [exact Hnd|]. split; [exact Hrun|].
  split; [by vm_compute|].
  exact (rows_come_from_workers None _ 3 demo_system _ s demo_main Hnd Hrun).
Defined.

End provenance.

(* ===================================================================== *)
(** * Workers and exceptions *)
(* ===================================================================== *)

Section faults.

Implicit Types (s : system) (a : action) (schedule : list action).








End faults.
